(** * Verification of the s3xplorer transfer/orchestration core

    Shallow embedding of the parts of [src/core/aws_client.py],
    [src/ui/workers.py] and [src/ui/operations_window.py] that implement
    the retry executor, paginated listing, single-file progress reporting,
    download cleanup, batched directory delete and operation bookkeeping. *)

From Stdlib Require Import ZArith List Ascii String Bool Lia.
From stdpp Require Import base gmap strings.
Import ListNotations.
Open Scope Z_scope.

(* ------------------------------------------------------------------ *)
(** ** Retry executor: [AWSClient._execute_with_retry] *)
(* ------------------------------------------------------------------ *)

Module Retry.

(** The exceptions a backend call can raise, as the [except] clauses of
    [_execute_with_retry] tell them apart: a botocore [ClientError] with
    its [Error.Code] (possibly absent) and [Error.Message], a builtin
    [ConnectionError]/[TimeoutError], and any other exception. *)
Inductive Exc :=
| ClientError (code : option string) (msg : string)
| ConnError (msg : string)
| OtherExc (msg : string).

(** What one invocation of the call [func] does. *)
Inductive CallResult (A : Type) :=
| Returned (v : A)
| Raised (e : Exc).
Arguments Returned {A} v.
Arguments Raised {A} e.

(** [class AWSError]: message, code, operation (details left out). *)
Record AWSError := mkAWSError {
  message : string;
  code : option string;
  operation : string
}.

(** The retry settings of [AWSClient] ([max_retries], [retry_delay],
    [exponential_backoff]). *)
Record RetryPolicy := mkPolicy {
  max_retries : Z;
  retry_delay : Z;
  exponential_backoff : bool
}.

Definition retryable_codes : list string :=
  ["SlowDown"; "ThrottlingException"; "RequestLimitExceeded";
   "RequestTimeout"; "InternalError"; "ServiceUnavailable";
   "ProvisionedThroughputExceededException"]%string.

(** [error_code in [...]]; [None] is in no list of strings. *)
Definition is_retryable (c : option string) : bool :=
  match c with
  | Some s => existsb (fun r => String.eqb r s) retryable_codes
  | None => false
  end.

(** [delay = retry_delay * (2 ** (retries - 1))] or [retry_delay]. *)
Definition backoff_delay (p : RetryPolicy) (retries : Z) : Z :=
  if exponential_backoff p then retry_delay p * 2 ^ (retries - 1)
  else retry_delay p.

(** How [_execute_with_retry] ends: it returns the call's value, raises
    an [AWSError], or (loop never entered, no exception recorded) falls
    off its end and returns [None]. [OutOfFuel] is never reached with the
    fuel [execute] supplies (see [execute_not_out_of_fuel]). *)
Inductive Outcome (A : Type) :=
| RetOk (v : A)
| RetErr (e : AWSError)
| RetNone
| OutOfFuel.
Arguments RetOk {A} v.
Arguments RetErr {A} e.
Arguments RetNone {A}.
Arguments OutOfFuel {A}.

(** What the caller can observe of a run, in order: each invocation of
    [func] and each [time.sleep(delay)]. *)
Inductive Event :=
| Call
| Sleep (delay : Z).

(** Loop variables, plus the trace of events so far. *)
Record LoopState := mkLoop {
  retries : Z;
  last_exception : option AWSError;
  trace : list Event
}.

Section Loop.
Context {A : Type}.
Variable p : RetryPolicy.
Variable operation_name : string.
(** [func k]: what the backend call does when invoked after [k] failed
    attempts. *)
Variable func : nat -> CallResult A.

(** The retry path shared by the retryable [ClientError] branch and the
    [ConnectionError]/[TimeoutError] branch: [retries += 1], compute the
    delay, [time.sleep(delay)]. *)
Definition retry_step (st : LoopState) (e : AWSError) : LoopState :=
  let r := retries st + 1 in
  mkLoop r (Some e) (trace st ++ [Call; Sleep (backoff_delay p r)]).

Definition stop_with (st : LoopState) : LoopState :=
  mkLoop (retries st) (last_exception st) (trace st ++ [Call]).

Fixpoint run_loop (fuel : nat) (st : LoopState) : Outcome A * LoopState :=
  match fuel with
  | O => (OutOfFuel, st)
  | S fuel' =>
    if retries st <=? max_retries p then
      match func (Z.to_nat (retries st)) with
      | Returned v => (RetOk v, stop_with st)
      | Raised (ClientError c m) =>
        if is_retryable c then
          run_loop fuel' (retry_step st (mkAWSError m c operation_name))
        else
          (RetErr (mkAWSError m c operation_name), stop_with st)
      | Raised (ConnError m) =>
          run_loop fuel' (retry_step st (mkAWSError m None operation_name))
      | Raised (OtherExc m) =>
          (RetErr (mkAWSError m None operation_name), stop_with st)
      end
    else
      match last_exception st with
      | Some e => (RetErr e, st)
      | None => (RetNone, st)
      end
  end.

(** The loop runs at most [max_retries + 1] bodies and one final test. *)
Definition execute : Outcome A * LoopState :=
  run_loop (S (Z.to_nat (max_retries p + 1))) (mkLoop 0 None []).

End Loop.

(** Spec side: the delay before the [N]-th retry is
    [baseDelay * 2^(N-1)] with exponential backoff, else [baseDelay]. *)
Definition spec_delay (p : RetryPolicy) (N : nat) : Z :=
  if exponential_backoff p then retry_delay p * 2 ^ (Z.of_nat N - 1)
  else retry_delay p.

(** [rounds p n]: [n] failed attempts, the [N]-th followed by the sleep
    that precedes retry [N]. *)
Fixpoint rounds (p : RetryPolicy) (n : nat) : list Event :=
  match n with
  | O => []
  | S n' => rounds p n' ++ [Call; Sleep (spec_delay p (S n'))]
  end.

Definition count_calls (t : list Event) : nat :=
  length (List.filter (fun e => match e with Call => true | _ => false end) t).

End Retry.

(* ------------------------------------------------------------------ *)
(** ** Paginated listing: [AWSClient.list_objects] *)
(* ------------------------------------------------------------------ *)

Module Listing.

(** One entry of [response['Contents']] (the fields the claims use). *)
Record S3Object := mkS3Object {
  Key : string;
  Size : Z
}.

(** One [list_objects_v2] response page. [CommonPrefixes] is kept as the
    list of the [Prefix] values of its entries. *)
Record Page := mkPage {
  Contents : list S3Object;
  CommonPrefixes : list string;
  IsTruncated : bool;
  NextContinuationToken : option string
}.

(** The [params] dict sent to [list_objects_v2]; [Prefix] and
    [ContinuationToken] are absent until set. *)
Record ListRequest := mkRequest {
  req_Bucket : string;
  req_MaxKeys : Z;
  req_Delimiter : string;
  req_Prefix : option string;
  req_ContinuationToken : option string
}.

(** An entry of [all_objects] (without [last_modified], [etag] and
    [storage_class], which are copied field by field). *)
Record ObjectEntry := mkEntry {
  entry_key : string;
  entry_size : Z;
  entry_is_directory : bool
}.

(** An entry of [all_prefixes]; its display [name] is left out. *)
Record PrefixEntry := mkPrefixEntry {
  prefix_value : string
}.

Record ListResult := mkListResult {
  objects : list ObjectEntry;
  prefixes : list PrefixEntry;
  result_bucket : string;
  current_prefix : string
}.

(** [s.endswith(suffix)]. *)
Definition ends_with (suffix s : string) : bool :=
  let n := String.length s in
  let k := String.length suffix in
  (k <=? n)%nat && String.eqb (substring (n - k) k s) suffix.

Definition to_entry (o : S3Object) : ObjectEntry :=
  mkEntry (Key o) (Size o) (ends_with "/" (Key o)).

(** Python truthiness of a [str] or [None]. *)
Definition truthy (s : option string) : bool :=
  match s with
  | Some v => negb (String.eqb v "")
  | None => false
  end.

(** The per-page processing of [CommonPrefixes]:
    [if prefix_value and prefix_value != prefix]. *)
Definition keep_prefix (prefix v : string) : bool :=
  negb (String.eqb v "") && negb (String.eqb v prefix).

Record ListingClient := mkListingClient {
  page_size : Z;
  max_pages : Z
}.

(** [AWSClient.__init__]: [max_pages = 20] is never read from config. *)
Definition default_listing_client : ListingClient := mkListingClient 1000 20.

Section ListObjects.
Variable client : ListingClient.
(** [call k req]: the [_execute_with_retry(list_objects_v2, **params)]
    call for the [k]-th page ([k] from 0); [None] when it raises. *)
Variable call : nat -> ListRequest -> option Page.
Variables (bucket prefix delimiter : string).

Definition initial_params : ListRequest :=
  mkRequest bucket (page_size client) delimiter
    (if String.eqb prefix "" then None else Some prefix) None.

(** Loop state: [params], [continuation_token], [page_count], the two
    accumulators, and the (request, response) pairs seen so far. *)
Record LoopState := mkLS {
  params : ListRequest;
  continuation_token : option string;
  page_count : Z;
  all_objects : list ObjectEntry;
  all_prefixes : list PrefixEntry;
  fetched : list (ListRequest * Page)
}.

Fixpoint list_loop (fuel : nat) (st : LoopState) : option LoopState :=
  match fuel with
  | O => None
  | S fuel' =>
    let pc := page_count st + 1 in
    let ps := if truthy (continuation_token st)
              then mkRequest (req_Bucket (params st)) (req_MaxKeys (params st))
                     (req_Delimiter (params st)) (req_Prefix (params st))
                     (continuation_token st)
              else params st in
    match call (length (fetched st)) ps with
    | None => None
    | Some resp =>
      let objs := all_objects st ++ map to_entry (Contents resp) in
      let pfx := all_prefixes st ++
                 map mkPrefixEntry (List.filter (keep_prefix prefix) (CommonPrefixes resp)) in
      let fe := fetched st ++ [(ps, resp)] in
      if negb (IsTruncated resp) || (max_pages client <=? pc) then
        Some (mkLS ps (continuation_token st) pc objs pfx fe)
      else
        list_loop fuel' (mkLS ps (NextContinuationToken resp) pc objs pfx fe)
    end
  end.

(** [list_objects(bucket, prefix, delimiter)]: [None] when an
    [AWSError] is raised, otherwise the returned dict together with the
    pages fetched, in order. *)
Definition list_objects : option (ListResult * list (ListRequest * Page)) :=
  match list_loop (S (Z.to_nat (max_pages client))) (mkLS initial_params None 0 [] [] []) with
  | None => None
  | Some st => Some (mkListResult (all_objects st) (all_prefixes st) bucket prefix, fetched st)
  end.

End ListObjects.

End Listing.



(* ------------------------------------------------------------------ *)
(** ** Single-file transfers and their progress reporting *)
(* ------------------------------------------------------------------ *)

Module Progress.

(** Signals a worker emits through [WorkerSignals], in emission order. *)
Inductive Signal :=
| SProgress (pct : Z)
| SSuccess
| SFinished
| SError.

(** One invocation of the [Callback] by the transfer routine: the byte
    amount, the value [time.time()] returns if the worker callback reads
    it (milliseconds), whether the worker has been cancelled, and (for
    downloads) whether [cancel_download] has set [_download_stop]. The
    transfer routine's invocations are taken one at a time. *)
Record CbEvent := mkCbEvent {
  ev_amount : Z;
  ev_now : Z;
  ev_cancelled : bool;
  ev_stop : bool
}.

(** The [progress_callback] closure shared by [UploadWorker.run] and
    [DownloadWorker.run] ([uploaded_bytes] / [downloaded_bytes] is
    [w_bytes]). It is handed to [AWSClient.upload_file]/[download_file],
    which call it with a percentage, which the closure adds as a byte
    amount. [int(x * 100 / file_size)] is truncation of the quotient. *)
Record WState := mkWState {
  w_bytes : Z;
  w_last_value : Z;
  w_last_time : Z;
  w_emitted : list Z
}.

Definition worker_callback (file_size : Z) (ev : CbEvent) (amount : Z)
    (w : WState) : bool * WState :=
  if ev_cancelled ev then (false, w)
  else
    let b := w_bytes w + amount in
    if 0 <? file_size then
      let progress := Z.min 99 (Z.quot (b * 100) file_size) in
      if negb (progress =? w_last_value w) && (200 <=? ev_now ev - w_last_time w)
      then (true, mkWState b progress (ev_now ev) (w_emitted w ++ [progress]))
      else (true, mkWState b (w_last_value w) (w_last_time w) (w_emitted w))
    else (true, mkWState b (w_last_value w) (w_last_time w) (w_emitted w)).

(** [AWSClient.upload_file]'s [ProgressCallback]: [uploaded], [last_percent].
    [None] is the [ZeroDivisionError] of [self.uploaded * 100 / self.total_size]. *)
Record AState := mkAState {
  a_done : Z;
  a_last : Z;
  a_stop : bool
}.

Definition upload_percent (total done : Z) : option Z :=
  if total =? 0 then None else Some (Z.min 100 (Z.quot (done * 100) total)).

Definition upload_cb_step (total file_size : Z) (ev : CbEvent)
    (s : AState * WState) : option (AState * WState) :=
  let (a, w) := s in
  let done := a_done a + ev_amount ev in
  match upload_percent total done with
  | None => None
  | Some pc =>
    if a_last a <? pc then
      let (_, w') := worker_callback file_size ev pc w in
      Some (mkAState done pc (a_stop a), w')
    else Some (mkAState done (a_last a) (a_stop a), w)
  end.

(** [AWSClient.download_file]'s [ProgressCallback]: it returns at once
    when the stop event is set, guards the zero size, and sets the stop
    event when the worker callback returns [False]. [a_stop] records
    that this callback set it. *)
Definition download_percent (total done : Z) : Z :=
  if total =? 0 then 0 else Z.min 100 (Z.quot (done * 100) total).

Definition download_cb_step (total file_size : Z) (ev : CbEvent)
    (s : AState * WState) : AState * WState :=
  let (a, w) := s in
  if ev_stop ev || a_stop a then (a, w)
  else
    let done := a_done a + ev_amount ev in
    let pc := download_percent total done in
    if a_last a <? pc then
      let (ret, w') := worker_callback file_size ev pc w in
      (mkAState done pc (a_stop a || negb ret), w')
    else (mkAState done (a_last a) (a_stop a), w).

Fixpoint run_upload_cbs (total file_size : Z) (evs : list CbEvent)
    (s : AState * WState) : option (AState * WState) :=
  match evs with
  | [] => Some s
  | ev :: evs' =>
    match upload_cb_step total file_size ev s with
    | None => None
    | Some s' => run_upload_cbs total file_size evs' s'
    end
  end.

Definition run_download_cbs (total file_size : Z) (evs : list CbEvent)
    (s : AState * WState) : AState * WState :=
  fold_left (fun s ev => download_cb_step total file_size ev s) evs s.

(** What the environment supplies to a single-file transfer. *)
Record TransferEnv := mkEnv {
  cancelled_at_start : bool;     (** [is_cancelled()] at the top of [run] *)
  local_exists : bool;           (** upload: [os.path.exists(file_path)] *)
  size : Z;                      (** file size / [ContentLength] *)
  metadata_ok : bool;            (** download: [get_object_metadata] succeeds *)
  head_ok : bool;                (** download: [head_object] in [download_file] succeeds *)
  events : list CbEvent;         (** callback invocations of the transfer routine *)
  transfer_ok : bool;            (** the transfer routine returns (else raises) *)
  stop_after : bool;             (** [_download_stop.is_set()] after it returns *)
  cancelled_after : bool;        (** [is_cancelled()] after [upload_file]/[download_file] *)
  start_time : Z                 (** [time.time()] before the transfer *)
}.

(** [self.aws_client.format_size]: [AWSClient] defines no such method,
    so the attribute lookup raises [AttributeError]. The workers are
    modelled for either outcome of the lookup. *)
Definition aws_client_has_format_size : bool := false.

Definition init_w (env : TransferEnv) : WState :=
  mkWState 0 0 (start_time env) [].

(** [AWSClient.upload_file]: [Some true] when it returns [True], [None]
    when it raises; with the worker callback's final state. *)
Definition upload_file (env : TransferEnv) (file_size : Z) : option bool * WState :=
  if negb (local_exists env) then (None, init_w env)
  else
    match run_upload_cbs (size env) file_size (events env)
            (mkAState 0 0 false, init_w env) with
    | None => (None, init_w env)
    | Some (_, w) => (if transfer_ok env then Some true else None, w)
    end.

(** [UploadWorker.run]. [get_file_info] yields [{}] (size 0) for a
    missing file. *)
Definition upload_worker_run (has_format_size : bool) (env : TransferEnv) : list Signal :=
  if cancelled_at_start env then []
  else
    let file_size := if local_exists env then size env else 0 in
    if negb has_format_size then [SProgress 0; SError]
    else
      let (r, w) := upload_file env file_size in
      [SProgress 0; SProgress 0] ++ map SProgress (w_emitted w) ++
      match r with
      | None => [SError]
      | Some success =>
        if cancelled_after env || negb success then []
        else [SProgress 100; SSuccess; SFinished]
      end.

(** [AWSClient.download_file]; [a_stop] of the final callback state
    together with [stop_after] is [_download_stop.is_set()]. *)
Definition download_file (env : TransferEnv) (file_size : Z) : option bool * WState :=
  if negb (head_ok env) then (None, init_w env)
  else
    let (a, w) := run_download_cbs (size env) file_size (events env)
                    (mkAState 0 0 false, init_w env) in
    if negb (transfer_ok env) then (None, w)
    else if stop_after env || a_stop a then (Some false, w)
    else (Some true, w).

(** [DownloadWorker.run]: the size probe's [try] also catches the
    [format_size] failure, which leaves [file_size = 0]. *)
Definition download_worker_run (has_format_size : bool) (env : TransferEnv) : list Signal :=
  if cancelled_at_start env then []
  else
    let probe := if metadata_ok env && has_format_size then [SProgress 0] else [] in
    let file_size := if metadata_ok env && has_format_size then size env else 0 in
    let (r, w) := download_file env file_size in
    [SProgress 0] ++ probe ++ map SProgress (w_emitted w) ++
    match r with
    | None => [SError]
    | Some success =>
      if cancelled_after env || negb success then []
      else [SProgress 100; SSuccess; SFinished]
    end.

Fixpoint progress_values (sigs : list Signal) : list Z :=
  match sigs with
  | [] => []
  | SProgress v :: sigs' => v :: progress_values sigs'
  | _ :: sigs' => progress_values sigs'
  end.

Fixpoint nondecreasing (l : list Z) : bool :=
  match l with
  | x :: ((y :: _) as l') => (x <=? y) && nondecreasing l'
  | _ => true
  end.

End Progress.



(** ** [AWSClient.download_file]: what it leaves at [save_path] *)
Module Cleanup.

(** The local file at [save_path]: none, a partially written one (or any
    content other than the object), or the complete object. *)
Inductive LocalFile :=
| Absent
| Partial
| Complete.

(** [self.s3_client.download_file(...)]: it returns only after the whole
    object is at [save_path]; when it raises it may leave any content
    there. *)
Inductive TransferOutcome :=
| TReturns
| TRaises (left_behind : LocalFile).

Inductive DownloadResult :=
| DReturned (b : bool)
| DRaised.

Record DownloadEnv := mkDownloadEnv {
  head_object_ok : bool;       (** [_execute_with_retry(head_object)] returns *)
  makedirs_ok : bool;          (** [os.makedirs(dirname(save_path))] returns *)
  transfer : TransferOutcome;
  stop_is_set : bool;          (** [_download_stop.is_set()] after the transfer:
                                   set by the callback or by [cancel_download] *)
  remove_ok : bool             (** [os.remove(save_path)] succeeds (errors are swallowed) *)
}.

(** [if os.path.exists(save_path): try: os.remove(save_path) except: pass] *)
Definition remove_if_exists (env : DownloadEnv) (f : LocalFile) : LocalFile :=
  match f with
  | Absent => Absent
  | _ => if remove_ok env then Absent else f
  end.

(** [download_file] from the local file present before the call. Both
    [except] clauses run the same clean-up and raise. *)
Definition download_file (env : DownloadEnv) (before : LocalFile) : DownloadResult * LocalFile :=
  if negb (head_object_ok env) then (DRaised, remove_if_exists env before)
  else if negb (makedirs_ok env) then (DRaised, remove_if_exists env before)
  else
    match transfer env with
    | TRaises f => (DRaised, remove_if_exists env f)
    | TReturns =>
      if stop_is_set env then (DReturned false, remove_if_exists env Complete)
      else (DReturned true, Complete)
    end.

End Cleanup.

(** ** [DeleteDirectoryWorker.run] *)
Module Delete.
Local Open Scope nat_scope.

Inductive DSignal :=
| DProgress (pct : nat)
| DSuccess
| DFinished
| DError.

(** What the environment supplies: the cancellation flag at each check,
    the keys [list_objects(bucket, prefix, delimiter='')] returns ([None]
    when it raises), and whether [_execute_with_retry(delete_objects)]
    returns for the [k]-th batch ([False]: it raises). *)
Record DeleteEnv := mkDeleteEnv {
  cancelled_at_start : bool;
  listing : option (list string);
  cancelled_after_listing : bool;
  cancelled_before_batch : nat -> bool;
  batch_ok : nat -> bool;
  cancelled_at_end : bool
}.

Record DelState := mkDel {
  calls : list (list string);     (** the keys of each [delete_objects] call, in order *)
  deleted_objects : nat;
  signals : list DSignal
}.

Inductive LoopEnd := LoopDone | LoopCancelled | LoopError.

Definition batch_size : nat := 1000.

(** [objects[i:i+batch_size]] for [i = k * batch_size]. *)
Definition batch_at (objects : list string) (k : nat) : list string :=
  firstn batch_size (skipn (k * batch_size) objects).

(** [for i in range(0, len(objects), batch_size): ...], the [k]-th round
    handling [i = k * batch_size]. *)
Fixpoint delete_loop (env : DeleteEnv) (objects : list string) (total : nat)
    (fuel k : nat) (st : DelState) : DelState * LoopEnd :=
  match fuel with
  | O => (st, LoopDone)
  | S fuel' =>
    if length objects <=? k * batch_size then (st, LoopDone)
    else if cancelled_before_batch env k then (st, LoopCancelled)
    else
      let batch := batch_at objects k in
      let cs := calls st ++ [batch] in
      if batch_ok env k then
        let d := deleted_objects st + length batch in
        delete_loop env objects total fuel' (S k)
          (mkDel cs d (signals st ++ [DProgress (d * 100 / total)]))
      else (mkDel cs (deleted_objects st) (signals st ++ [DError]), LoopError)
  end.

(** [DeleteDirectoryWorker.run]; a raising [list_objects] reaches
    [_handle_exception], which emits the error signal. *)
Definition delete_directory_run (env : DeleteEnv) : DelState :=
  if cancelled_at_start env then mkDel [] 0 []
  else
    match listing env with
    | None => mkDel [] 0 [DProgress 0; DError]
    | Some [] => mkDel [] 0 [DProgress 0; DProgress 100; DSuccess; DFinished]
    | Some objects =>
      if cancelled_after_listing env then mkDel [] 0 [DProgress 0]
      else
        let (st, e) := delete_loop env objects (length objects) (S (length objects)) 0
                         (mkDel [] 0 [DProgress 0; DProgress 0]) in
        match e with
        | LoopDone =>
          if cancelled_at_end env then st
          else mkDel (calls st) (deleted_objects st)
                 (signals st ++ [DProgress 100; DSuccess; DFinished])
        | _ => st
        end
    end.

(** The consecutive batches of [batch_size] keys, [n] of them from the
    first. *)
Definition first_batches (objects : list string) (n : nat) : list (list string) :=
  map (batch_at objects) (seq 0 n).

(** No cancellation check of the run finds the worker cancelled. *)
Definition no_cancel (env : DeleteEnv) : Prop :=
  cancelled_at_start env = false /\ cancelled_after_listing env = false /\
  (forall k, cancelled_before_batch env k = false) /\ cancelled_at_end env = false.

(** A run's outcome signals report failure: an error, and no success. *)
Definition reports_failure (st : DelState) : Prop :=
  In DError (signals st) /\ ~ In DSuccess (signals st).

(** A directory of 2500 keys, never cancelled, where [ok k] says whether
    the [k]-th batch delete succeeds. *)
Definition keys_2500 : list string := repeat "obj"%string 2500.

Definition env_2500 (ok : nat -> bool) : DeleteEnv :=
  mkDeleteEnv false (Some keys_2500) false (fun _ => false) ok false.

End Delete.



(** ** [OperationsWindow] and [WorkerManager.cancel_worker] *)
Module Operations.

(** [operation['state']]: ['active'], ['completed'] or ['failed']. *)
Inductive OpState := Active | Completed | Failed.

(** The fields of an entry of [self.operations] that the state machine
    reads or writes. *)
Record Operation := mkOp {
  op_type : string;
  op_progress : Z;
  op_state : OpState;
  op_ended : bool          (** [end_time] is set *)
}.

Record Counters := mkCounters {
  n_active : Z;
  n_completed : Z;
  n_failed : Z
}.

(** [operation_cancelled_emitted] lists the ids sent through the
    [operation_cancelled] signal. *)
Record Window := mkWindow {
  operations : gmap string Operation;
  operation_counters : Counters;
  operation_cancelled_emitted : list string
}.

Record Manager := mkManager {
  active_workers : gset string;
  cancelled_workers : list string      (** workers whose [cancel()] was called *)
}.

(** [add_operation]; [operation_id] is the fresh [str(uuid.uuid4())]. *)
Definition add_operation (operation_id operation_type : string) (w : Window) : Window :=
  let c := operation_counters w in
  mkWindow (<[operation_id := mkOp operation_type 0 Active false]> (operations w))
    (mkCounters (n_active c + 1) (n_completed c) (n_failed c))
    (operation_cancelled_emitted w).

Definition update_progress (operation_id : string) (progress : Z) (w : Window) : Window :=
  match operations w !! operation_id with
  | None => w
  | Some op =>
    mkWindow (<[operation_id := mkOp (op_type op) progress (op_state op) (op_ended op)]>
                (operations w))
      (operation_counters w) (operation_cancelled_emitted w)
  end.

(** [complete_operation(operation_id, success)]: no check of the current
    state. *)
Definition complete_operation (operation_id : string) (success : bool) (w : Window) : Window :=
  match operations w !! operation_id with
  | None => w
  | Some op =>
    let c := operation_counters w in
    let op' := mkOp (op_type op) (op_progress op)
                 (if success then Completed else Failed) true in
    let c' := if success
              then mkCounters (n_active c - 1) (n_completed c + 1) (n_failed c)
              else mkCounters (n_active c - 1) (n_completed c) (n_failed c + 1) in
    mkWindow (<[operation_id := op']> (operations w)) c' (operation_cancelled_emitted w)
  end.

(** [cancel_operation]: returns [None] in every case; the ids it emits
    through [operation_cancelled] are returned alongside the window. *)
Definition cancel_operation (operation_id : string) (w : Window) : list string * Window :=
  match operations w !! operation_id with
  | None => ([], w)
  | Some op =>
    match op_state op with
    | Active =>
      ([operation_id],
       mkWindow (operations w) (operation_counters w)
         (operation_cancelled_emitted w ++ [operation_id]))
    | _ => ([], w)
    end
  end.

Definition remove_operation (operation_id : string) (w : Window) : Window :=
  mkWindow (delete operation_id (operations w)) (operation_counters w)
    (operation_cancelled_emitted w).

(** [WorkerManager.cancel_worker]. *)
Definition cancel_worker (worker_id : string) (m : Manager) : bool * Manager :=
  if decide (worker_id ∈ active_workers m)
  then (true, mkManager (active_workers m) (cancelled_workers m ++ [worker_id]))
  else (false, m).

Record App := mkApp {
  window : Window;
  manager : Manager
}.

Inductive Event :=
| EvAdd (operation_id operation_type : string)
| EvProgress (operation_id : string) (progress : Z)
| EvComplete (operation_id : string) (success : bool)
| EvCancel (operation_id : string)
| EvRemove (operation_id : string).

(** [operation_cancelled] is connected to [MainWindow.handle_operation_cancel],
    which calls [cancel_worker] with the emitted id. *)
Definition handle_operation_cancel (ids : list string) (m : Manager) : Manager :=
  fold_left (fun m id => snd (cancel_worker id m)) ids m.

Definition step (e : Event) (a : App) : App :=
  match e with
  | EvAdd id ty => mkApp (add_operation id ty (window a)) (manager a)
  | EvProgress id p => mkApp (update_progress id p (window a)) (manager a)
  | EvComplete id s => mkApp (complete_operation id s (window a)) (manager a)
  | EvCancel id =>
    let (emitted, w') := cancel_operation id (window a) in
    mkApp w' (handle_operation_cancel emitted (manager a))
  | EvRemove id => mkApp (remove_operation id (window a)) (manager a)
  end.

Definition run (evs : list Event) (a : App) : App :=
  fold_left (fun a e => step e a) evs a.

(** The events the application issues for an existing operation
    [operation_id]: every [complete_operation] call site passes the
    default [success=True], and [add_operation] draws a fresh uuid. *)
Definition app_event (operation_id : string) (e : Event) : bool :=
  match e with
  | EvAdd id _ => negb (bool_decide (id = operation_id))
  | EvComplete _ s => s
  | _ => true
  end.

Definition state_of (operation_id : string) (a : App) : option OpState :=
  op_state <$> operations (window a) !! operation_id.

(** One completed upload, its worker already cleaned up. *)
Definition completed_app : App :=
  mkApp (mkWindow {[ "op1"%string := mkOp "Upload" 100 Completed true ]}
           (mkCounters 0 1 0) [])
        (mkManager ∅ []).

End Operations.



(** ** [ListObjectsWorker.run] and the binding of its [list_objects] call *)
Module ListWorker.

(** Python's binding of a call's arguments to a function without
    [*args] or [**kwargs]: [npos] positional arguments fill the first
    parameters; every keyword must name a parameter not already filled
    ("unexpected keyword argument", "got multiple values"), and every
    required parameter must be filled; otherwise the call raises
    [TypeError] before the body runs. *)
Definition call_binds (params required : list string) (npos : nat) (kws : list string) : bool :=
  Nat.leb npos (length params) &&
  forallb (fun k => existsb (String.eqb k) (skipn npos params)) kws &&
  forallb (fun r => existsb (String.eqb r) (firstn npos params) || existsb (String.eqb r) kws)
    required.

(** [AWSClient.list_objects(self, bucket, prefix='', delimiter='/')]. *)
Definition list_objects_params : list string := ["bucket"; "prefix"; "delimiter"]%string.
Definition list_objects_required : list string := ["bucket"]%string.

Inductive LSignal :=
| LSProgress (pct : Z)
| LSData
| LSSuccess
| LSFinished
| LSError.

Record ListWorkerEnv := mkListWorkerEnv {
  lw_cancelled_at_start : bool;
  lw_bucket : string;
  lw_prefix : string;
  lw_recursive : bool;
  lw_listing_ok : bool;            (** the body of [list_objects] returns *)
  lw_cancelled_after : bool
}.

(** [ListObjectsWorker.run]: the call
    [list_objects(self.bucket, self.prefix, recursive=self.recursive)]
    has two positional arguments and the keyword [recursive]. *)
Definition list_objects_worker_run (env : ListWorkerEnv) : list LSignal :=
  if lw_cancelled_at_start env then []
  else
    [LSProgress 0] ++
    if call_binds list_objects_params list_objects_required 2 ["recursive"%string] then
      if lw_listing_ok env then
        if lw_cancelled_after env then []
        else [LSData; LSProgress 100; LSSuccess; LSFinished]
      else [LSError]
    else [LSError].

End ListWorker.

(* ------------------------------------------------------------------ *)
(** ** The [str] methods the code applies to keys and prefixes *)
(* ------------------------------------------------------------------ *)

(** Keys, prefixes and etags are modelled as byte strings; the separators
    the code strips and splits on ([/] and the double quote) are ASCII. *)
Module PyStr.
Open Scope string_scope.

(** [s.lstrip(c)] for a one-character [c]. *)
Fixpoint lstrip_char (c : Ascii.ascii) (s : string) : string :=
  match s with
  | EmptyString => EmptyString
  | String a s' => if Ascii.eqb a c then lstrip_char c s' else s
  end.

(** [s.rstrip(c)] for a one-character [c]: a character survives unless it
    and everything after it are [c]. *)
Fixpoint rstrip_char (c : Ascii.ascii) (s : string) : string :=
  match s with
  | EmptyString => EmptyString
  | String a s' =>
    let r := rstrip_char c s' in
    if Ascii.eqb a c && String.eqb r "" then EmptyString else String a r
  end.

(** [s.strip(c)]. *)
Definition strip_char (c : Ascii.ascii) (s : string) : string :=
  rstrip_char c (lstrip_char c s).

(** [s.split(c)] for a one-character separator: never empty. *)
Fixpoint split_char (c : Ascii.ascii) (s : string) : list string :=
  match s with
  | EmptyString => [EmptyString]
  | String a s' =>
    if Ascii.eqb a c then EmptyString :: split_char c s'
    else match split_char c s' with
         | h :: t => String a h :: t
         | [] => [String a EmptyString]
         end
  end.

(** [c in s] for a one-character [c]. *)
Fixpoint contains_char (c : Ascii.ascii) (s : string) : bool :=
  match s with
  | EmptyString => false
  | String a s' => Ascii.eqb a c || contains_char c s'
  end.

(** [l[-1]] on the (never empty) result of [split]. *)
Definition py_last (l : list string) : string := List.last l EmptyString.

(** [s.startswith(p)]. *)
Definition starts_with (p s : string) : bool := String.prefix p s.

(** [s[n:]]. *)
Definition drop_chars (n : nat) (s : string) : string :=
  substring n (String.length s - n) s.

Definition slash : Ascii.ascii := "/"%char.
Definition dquote : Ascii.ascii := "034"%char.

End PyStr.

(* ------------------------------------------------------------------ *)
(** ** Names and keys derived from prefixes *)
(* ------------------------------------------------------------------ *)

Module Paths.
Import PyStr.
Open Scope string_scope.

(** [list_objects], per [CommonPrefixes] entry: the display [name],
    [prefix_value.rstrip('/').split('/')[-1] if '/' in prefix_value
     else prefix_value.rstrip('/')]. *)
Definition prefix_name (prefix_value : string) : string :=
  if contains_char slash prefix_value
  then py_last (split_char slash (rstrip_char slash prefix_value))
  else rstrip_char slash prefix_value.

(** [list_objects] ([obj.get('ETag', '').strip('"')]) and
    [get_object_metadata] ([response.get('ETag', '').strip('"')]). *)
Definition etag_of (etag : option string) : string :=
  strip_char dquote (match etag with Some e => e | None => "" end).

(** [DownloadDirectoryWorker.__init__] and [DeleteDirectoryWorker.__init__]:
    [self.prefix = prefix.rstrip('/') + '/']. *)
Definition dir_prefix (prefix : string) : string :=
  rstrip_char slash prefix ++ "/".

(** [UploadDirectoryWorker.run]: the key prefix the directory is
    uploaded under. *)
Definition dir_key (prefix dir_name : string) : string :=
  if negb (String.eqb prefix "")
  then rstrip_char slash prefix ++ "/" ++ dir_name ++ "/"
  else dir_name ++ "/".

End Paths.


(* ------------------------------------------------------------------ *)
(** ** Configuration file and connection profiles ([utils/config.py]) *)
(* ------------------------------------------------------------------ *)

Module Config.
Local Open Scope string_scope.

(** The JSON values the configuration holds ([str], [int], [bool],
    [None]); [json.dump] followed by [json.load] gives them back. *)
Inductive JValue :=
| JStr (s : string)
| JInt (z : Z)
| JBool (b : bool)
| JNull.

(** What [json.load] finds in [config.json] (or [profiles.json]): no file,
    a file that does not parse, or a JSON object. *)
Inductive ConfigFile :=
| Missing
| Unparseable
| JsonObject (m : (gmap string JValue)).

(** [self.defaults], in its dict order. *)
Definition defaults_list : list (string * JValue) :=
  [("theme", JStr "default");
   ("default_region", JStr "us-east-1");
   ("max_concurrent_operations", JInt 5);
   ("default_profile", JStr "");
   ("remember_credentials", JBool true);
   ("auto_refresh_interval", JInt 0);
   ("show_hidden_objects", JBool false);
   ("confirm_deletions", JBool true);
   ("completed_operations_ttl", JInt 5);
   ("operations_auto_cleanup", JInt 1);
   ("auto_cleanup_enabled", JBool true);
   ("auto_cleanup_age", JInt 1)].

Definition defaults : (gmap string JValue) := list_to_map defaults_list.

(** One round of [for key, value in self.defaults.items():
    if key not in config: config[key] = value]. *)
Definition add_default (config : (gmap string JValue)) (kv : string * JValue) : (gmap string JValue) :=
  if decide (config !! kv.1 = None) then <[kv.1 := kv.2]> config else config.

(** [_load_config]: the returned dict and the file afterwards. [writable]
    tells whether opening the file for writing succeeds. A missing file
    gets the defaults written to it; in every failing case the defaults
    are returned. *)
Definition load_config (writable : bool) (f : ConfigFile) : (gmap string JValue) * ConfigFile :=
  match f with
  | Missing => (defaults, if writable then JsonObject defaults else Missing)
  | Unparseable => (defaults, Unparseable)
  | JsonObject m => (fold_left add_default defaults_list m, f)
  end.

(** [save_config]: [True] and the file rewritten, or [False]. *)
Definition save_config (writable : bool) (config : (gmap string JValue)) (f : ConfigFile) : bool * ConfigFile :=
  if writable then (true, JsonObject config) else (false, f).

(** [get(key, default)] is [self.config.get(key, default)]. *)
Definition get (config : (gmap string JValue)) (key : string) (default : JValue) : JValue :=
  match config !! key with Some v => v | None => default end.

(** [set(key, value)]: assign, then [save_config()] (its result is
    dropped). *)
Definition set (writable : bool) (st : (gmap string JValue) * ConfigFile) (key : string) (value : JValue)
    : (gmap string JValue) * ConfigFile :=
  let config := <[key := value]> st.1 in
  (config, (save_config writable config st.2).2).

(** A session: [Config()] loads the file, then a sequence of [set] calls. *)
Definition run_sets (writable : bool) (st : (gmap string JValue) * ConfigFile)
    (sets : list (string * JValue)) : (gmap string JValue) * ConfigFile :=
  fold_left (fun st kv => set writable st kv.1 kv.2) sets st.

(** What [json.load] finds in [profiles.json]: no file, a file that does
    not parse, or a JSON object mapping profile names to objects. *)
Inductive ProfilesFile :=
| NoProfiles
| BadProfiles
| Profiles (ps : gmap string (gmap string JValue)).

(** [get_profiles]: [{}] when [profiles.json] is missing or unreadable. *)
Definition get_profiles (f : ProfilesFile) : gmap string (gmap string JValue) :=
  match f with
  | Profiles ps => ps
  | _ => ∅
  end.

(** [save_profile(name, profile_data)]: read the profiles, add or replace
    one, and write them all back when the file can be opened for
    writing. *)
Definition save_profile (writable : bool) (f : ProfilesFile)
    (name : string) (profile_data : (gmap string JValue)) : bool * ProfilesFile :=
  let profiles := <[name := profile_data]> (get_profiles f) in
  if writable then (true, Profiles profiles) else (false, f).

End Config.


(* ------------------------------------------------------------------ *)
(** ** [WorkerManager]: the registry of running workers *)
(* ------------------------------------------------------------------ *)

Module Workers.
Local Open Scope nat_scope.

(** The worker classes [cancel_worker] tells apart. *)
Inductive WorkerKind := WDownload | WDownloadDirectory | WOtherWorker.

(** A worker object: its class and its [_is_cancelled] flag. *)
Record Worker := mkWorker {
  kind : WorkerKind;
  cancelled : bool
}.

(** [self.active_workers] as the dict it is (keys in insertion order),
    and the [_download_stop] event of the [AWSClient] the workers share. *)
Record WM := mkWM {
  active_workers : list (string * Worker);
  download_stop : bool
}.

Definition dict_get (k : string) (d : list (string * Worker)) : option Worker :=
  match List.find (fun kv => String.eqb (fst kv) k) d with
  | Some kv => Some (snd kv)
  | None => None
  end.

(** [d[k] = v]: replaced in place when present, appended otherwise. *)
Definition dict_set (k : string) (v : Worker) (d : list (string * Worker))
    : list (string * Worker) :=
  if existsb (fun kv => String.eqb (fst kv) k) d
  then map (fun kv => if String.eqb (fst kv) k then (k, v) else kv) d
  else d ++ [(k, v)].

(** [del d[k]]. *)
Definition dict_del (k : string) (d : list (string * Worker)) : list (string * Worker) :=
  List.filter (fun kv => negb (String.eqb (fst kv) k)) d.

(** A method call mutating the object stored under [k]. *)
Definition dict_mutate (k : string) (f : Worker -> Worker) (d : list (string * Worker))
    : list (string * Worker) :=
  map (fun kv => if String.eqb (fst kv) k then (fst kv, f (snd kv)) else kv) d.

Definition is_download (w : Worker) : bool :=
  match kind w with WDownload | WDownloadDirectory => true | WOtherWorker => false end.

(** [BaseWorker.cancel]. *)
Definition cancel (w : Worker) : Worker := mkWorker (kind w) true.

(** [start_worker(worker, worker_id)] with the [worker_id] every caller
    passes. *)
Definition start_worker (w : Worker) (worker_id : string) (m : WM) : WM :=
  mkWM (dict_set worker_id w (active_workers m)) (download_stop m).

(** [cancel_worker(worker_id)]: [worker.cancel()], and
    [aws_client.cancel_download()] for a download worker. *)
Definition cancel_worker (worker_id : string) (m : WM) : bool * WM :=
  match dict_get worker_id (active_workers m) with
  | Some w =>
    (true, mkWM (dict_mutate worker_id cancel (active_workers m))
                (download_stop m || is_download w))
  | None => (false, m)
  end.

(** [cancel_all_workers()]: the count of [True] returns over
    [list(self.active_workers.keys())]. *)
Definition cancel_all_workers (m : WM) : nat * WM :=
  fold_left (fun acc worker_id =>
               let (b, m') := cancel_worker worker_id (snd acc) in
               (if b then S (fst acc) else fst acc, m'))
            (map fst (active_workers m)) (0, m).

Definition get_active_workers (m : WM) : nat := length (active_workers m).

(** [_cleanup_worker(worker_id)], run on the worker's [finished] or
    [error] signal. *)
Definition cleanup_worker (worker_id : string) (m : WM) : WM :=
  if existsb (fun kv => String.eqb (fst kv) worker_id) (active_workers m)
  then mkWM (dict_del worker_id (active_workers m)) (download_stop m)
  else m.

End Workers.


(* ------------------------------------------------------------------ *)
(** ** Bulk actions of [OperationsWindow] *)
(* ------------------------------------------------------------------ *)

Module OperationsBulk.
Import Operations.

Definition is_active (op : Operation) : bool :=
  match op_state op with Active => true | _ => false end.

(** [op.get('state') in ('completed', 'failed')]. *)
Definition is_terminal (op : Operation) : bool := negb (is_active op).

(** [clear_completed]: the ids of the terminal operations are collected,
    then removed one by one (the source removes them by descending row;
    row indices are not modelled, and removals of distinct ids commute). *)
Definition clear_completed (w : Window) : Window :=
  let completed_ids := map fst (List.filter (fun kv => is_terminal (snd kv))
                                  (map_to_list (operations w))) in
  match completed_ids with
  | [] => w
  | _ => fold_left (fun w id => remove_operation id w) completed_ids w
  end.

(** [cancel_all_operations], with [confirmed] the user's answer to the
    [QMessageBox] ([Yes] or not); the ids emitted through
    [operation_cancelled] are returned alongside the window. The loop
    over [self.operations.items()] sees the operations unchanged, since
    [cancel_operation] does not modify them. *)
Definition cancel_all_operations (confirmed : bool) (w : Window) : list string * Window :=
  let active_count := length (List.filter (fun kv => is_active (snd kv))
                                (map_to_list (operations w))) in
  if Nat.eqb active_count 0 then ([], w)
  else if negb confirmed then ([], w)
  else fold_left (fun acc kv =>
                    if is_active (snd kv)
                    then let (e, w') := cancel_operation (fst kv) (snd acc) in (fst acc ++ e, w')
                    else acc)
                 (map_to_list (operations w)) ([], w).

(** The number of operations in state ['active']. *)
Definition active_total (w : Window) : Z :=
  Z.of_nat (size (filter (fun kv => is_active kv.2 = true) (operations w))).

(** What the calls the window receives rely on: [add_operation] gets a
    fresh id, [complete_operation] is not called on an operation that is
    already terminal, and [remove_operation] (the completion timer,
    [clear_completed], [auto_cleanup]) is not called on an active one. *)
Definition event_ok (e : Event) (w : Window) : Prop :=
  match e with
  | EvAdd id _ => operations w !! id = None
  | EvComplete id _ => forall op, operations w !! id = Some op -> is_active op = true
  | EvRemove id => forall op, operations w !! id = Some op -> is_active op = false
  | _ => True
  end.

Fixpoint run_ok (evs : list Event) (a : App) : Prop :=
  match evs with
  | [] => True
  | e :: evs' => event_ok e (window a) /\ run_ok evs' (step e a)
  end.

End OperationsBulk.

(* ------------------------------------------------------------------ *)
(** * [AWSClient.delete_bucket] and [_delete_all_objects]
    (core/aws_client.py). *)
Module Bucket.
Import Listing.

(** The S3 calls that change the bucket, in the order they are made. *)
Inductive BCall :=
| DeleteObjects (bucket : string) (keys : list string)
| DeleteBucket (bucket : string).

Section DeleteBucket.
Variable client : ListingClient.
(** The [list_objects_v2] calls of [list_objects], as in [Listing]. *)
Variable call : nat -> ListRequest -> option Page.
(** Whether [_execute_with_retry(delete_objects, ...)] returns for the
    [k]-th batch ([false]: it raises). *)
Variable delete_ok : nat -> bool.
(** Whether [_execute_with_retry(delete_bucket, ...)] returns. *)
Variable bucket_ok : bool.
Variable bucket_name : string.

Definition batch_size : nat := 1000.

(** [for i in range(0, len(objects), batch_size)], the [k]-th round
    handling [i = k * batch_size]; the flag is [false] when a call
    raises. *)
Fixpoint delete_batches (objects : list ObjectEntry) (fuel k : nat) (cs : list BCall)
    : list BCall * bool :=
  match fuel with
  | O => (cs, true)
  | S fuel' =>
    if (length objects <=? k * batch_size)%nat then (cs, true)
    else
      let batch := firstn batch_size (skipn (k * batch_size) objects) in
      let cs' := cs ++ [DeleteObjects bucket_name (map entry_key batch)] in
      if delete_ok k then delete_batches objects fuel' (S k) cs' else (cs', false)
  end.

(** [_delete_all_objects(bucket_name)]: [self.list_objects(bucket_name)],
    i.e. [prefix=''] and [delimiter='/']; the flag is [false] when it
    raises. *)
Definition delete_all_objects : list BCall * bool :=
  match list_objects client call bucket_name "" "/" with
  | None => ([], false)
  | Some (result, _) =>
    let objects := objects result in
    match objects with
    | [] => ([], true)
    | _ => delete_batches objects (S (length objects)) 0 []
    end
  end.

(** [delete_bucket(bucket_name, force)]: an exception of
    [_delete_all_objects] propagates before [delete_bucket] is called. *)
Definition delete_bucket (force : bool) : list BCall * bool :=
  if force then
    let (cs, ok) := delete_all_objects in
    if ok then (cs ++ [DeleteBucket bucket_name], bucket_ok) else (cs, false)
  else ([DeleteBucket bucket_name], bucket_ok).

End DeleteBucket.

End Bucket.

(* ------------------------------------------------------------------ *)
(** * [UploadDirectoryWorker._upload_directory_recursive] (ui/workers.py). *)
Module UploadDir.
Import PyStr.
Local Open Scope string_scope.
Local Set Warnings "-register-all".

(** What [os.listdir] and [file_service.get_file_info] report for an
    entry: a file with its [st_size], a directory with its own listing
    ([None]: [os.listdir] raises on it), or an entry whose
    [get_file_info] is empty (missing, or [stat] failed). *)
Inductive FsItem :=
| FsFile (name : string) (size : Z)
| FsDir (name : string) (listing : option (list FsItem))
| FsNoInfo (name : string).

Definition item_name (it : FsItem) : string :=
  match it with FsFile n _ | FsDir n _ | FsNoInfo n => n end.

(** The worker's state as far as this method changes it: the
    [upload_file] calls made (local path, key), [uploaded_files],
    [uploaded_size], and the number of [error] signals emitted. The
    [progress] signals, whose percentages are computed in floating point,
    are left out. *)
Record UState := mkU {
  uploads : list (string * string);
  uploaded_files : nat;
  uploaded_size : Z;
  errors : nat
}.

(** [os.path.join(a, b)] (posixpath). *)
Definition path_join (a b : string) : string :=
  if starts_with "/" b then b
  else if String.eqb a "" || Listing.ends_with "/" a then a ++ b
  else a ++ "/" ++ b.

Definition emit_error (st : UState) : UState :=
  mkU (uploads st) (uploaded_files st) (uploaded_size st) (S (errors st)).

Section Recursive.
(** [self.is_cancelled()] when the loop reaches the entry at a path. *)
Variable cancelled_at : string -> bool.
(** Whether [self.aws_client.upload_file(item_path, ...)] returns (its
    return value is not looked at); [false]: it raises. *)
Variable upload_ok : string -> bool.

(** The loop [for item in os.listdir(current_dir)]: each entry is
    handled in turn and the loop stops at the first one whose handling
    returns [False]; [true] means it ran to the end. *)
Fixpoint loop_items (step : FsItem -> UState -> UState * bool) (items : list FsItem)
    (st : UState) : UState * bool :=
  match items with
  | [] => (st, true)
  | it :: rest =>
    let (st', go_on) := step it st in
    if go_on then loop_items step rest st' else (st', false)
  end.

(** One round of that loop in [_upload_directory_recursive(current_dir,
    s3_prefix)]: [false] when the method returns [False] there. A
    subdirectory is handled by the recursive call, which emits an error
    and returns [False] when its [os.listdir] raises. *)
Fixpoint upload_item (current_dir s3_prefix : string) (it : FsItem) (st : UState)
    : UState * bool :=
  let item_path := path_join current_dir (item_name it) in
  if cancelled_at item_path then (st, false)
  else
    match it with
    | FsNoInfo _ => (st, true)
    | FsDir item listing =>
      let dir_key := s3_prefix ++ item ++ "/" in
      match listing with
      | None => (emit_error st, false)
      | Some children => loop_items (upload_item item_path dir_key) children st
      end
    | FsFile item file_size =>
      let file_key := s3_prefix ++ item in
      let calls := (uploads st ++ [(item_path, file_key)])%list in
      if upload_ok item_path then
        (mkU calls (S (uploaded_files st)) (uploaded_size st + file_size) (errors st), true)
      else (mkU calls (uploaded_files st) (uploaded_size st) (S (errors st)), false)
    end.

Definition upload_items (current_dir s3_prefix : string) (items : list FsItem) (st : UState)
    : UState * bool :=
  loop_items (upload_item current_dir s3_prefix) items st.

(** [_upload_directory_recursive(current_dir, s3_prefix)], given what
    [os.listdir(current_dir)] returns ([None]: it raises). *)
Definition upload_directory_recursive (current_dir s3_prefix : string)
    (listing : option (list FsItem)) (st : UState) : UState * bool :=
  match listing with
  | None => (emit_error st, false)
  | Some items => upload_items current_dir s3_prefix items st
  end.

End Recursive.

End UploadDir.

(* ================================================================== *)
(** * Proofs *)
(* ================================================================== *)

Module RetryProofs.
Import Retry.

Lemma count_calls_app t1 t2 :
  count_calls (t1 ++ t2) = (count_calls t1 + count_calls t2)%nat.
Proof. unfold count_calls. rewrite List.filter_app, List.length_app. reflexivity. Qed.

Lemma count_calls_rounds p n : count_calls (rounds p n) = n.
Proof.
  induction n as [|n IH]; [reflexivity|].
  cbn [rounds]. rewrite count_calls_app, IH. cbn. lia.
Qed.

Lemma backoff_delay_spec p r :
  0 <= r -> backoff_delay p (r + 1) = spec_delay p (S (Z.to_nat r)).
Proof.
  intros Hr. unfold backoff_delay, spec_delay.
  destruct (exponential_backoff p); [|reflexivity].
  replace (Z.of_nat (S (Z.to_nat r)) - 1) with (r + 1 - 1) by lia.
  reflexivity.
Qed.

Lemma retry_step_rounds p (e : AWSError) st :
  0 <= retries st -> trace st = rounds p (Z.to_nat (retries st)) ->
  trace (retry_step p st e) = rounds p (Z.to_nat (retries (retry_step p st e))).
Proof.
  intros H0 Ht. simpl. rewrite Ht, backoff_delay_spec by exact H0.
  replace (Z.to_nat (retries st + 1)) with (S (Z.to_nat (retries st))) by lia.
  reflexivity.
Qed.

(** Shape of every terminated run: [n] failed attempts each followed by
    its backoff sleep, then either one last call (success or fatal
    error) or nothing (retries exhausted). *)
Definition schedule_shape (p : RetryPolicy) (t : list Event) : Prop :=
  exists n : nat,
    (t = rounds p n ++ [Call] /\ Z.of_nat n <= max_retries p) \/
    (t = rounds p n /\ Z.of_nat n = max_retries p + 1).

Lemma run_loop_shape {A} p op (func : nat -> CallResult A) fuel :
  forall st o st',
  0 <= retries st -> retries st <= max_retries p + 1 ->
  trace st = rounds p (Z.to_nat (retries st)) ->
  (Z.to_nat (max_retries p + 1 - retries st) < fuel)%nat ->
  run_loop p op func fuel st = (o, st') ->
  o <> OutOfFuel /\ schedule_shape p (trace st').
Proof.
  induction fuel as [|fuel IH]; intros st o st' H0 H1 Ht Hf Hrun; [lia|].
  simpl in Hrun.
  destruct (Z.leb_spec (retries st) (max_retries p)) as [Hle|Hgt].
  - assert (Hstop : schedule_shape p (trace (stop_with st))).
    { exists (Z.to_nat (retries st)). left. simpl. rewrite Ht. split; [reflexivity|lia]. }
    destruct (func (Z.to_nat (retries st))) as [v|[c m|m|m]].
    + injection Hrun as <- <-. split; [discriminate|exact Hstop].
    + destruct (is_retryable c).
      * eapply IH; [..|exact Hrun]; simpl; try lia.
        apply (retry_step_rounds p (mkAWSError m c op)); assumption.
      * injection Hrun as <- <-. split; [discriminate|exact Hstop].
    + eapply IH; [..|exact Hrun]; simpl; try lia.
      apply (retry_step_rounds p (mkAWSError m None op)); assumption.
    + injection Hrun as <- <-. split; [discriminate|exact Hstop].
  - assert (Hshape : schedule_shape p (trace st)).
    { exists (Z.to_nat (retries st)). right. split; [exact Ht|lia]. }
    destruct (last_exception st); injection Hrun as <- <-;
      (split; [discriminate|exact Hshape]).
Qed.

Lemma schedule_shape_calls p t :
  0 <= max_retries p -> schedule_shape p t ->
  Z.of_nat (count_calls t) <= max_retries p + 1.
Proof.
  intros Hm [n [[-> Hn]|[-> Hn]]].
  - rewrite count_calls_app, count_calls_rounds. cbn. lia.
  - rewrite count_calls_rounds. lia.
Qed.

(** C1: under [_execute_with_retry], the [N]-th retry is preceded by a
    sleep of [retry_delay * 2^(N-1)] (exponential backoff) or
    [retry_delay] (constant), and the backend call is invoked at most
    [max_retries + 1] times, whatever the backend does. *)
Theorem execute_retry_schedule {A} (p : RetryPolicy) (op : string)
    (func : nat -> CallResult A) (o : Outcome A) (st : LoopState) :
  0 <= max_retries p ->
  execute p op func = (o, st) ->
  o <> OutOfFuel /\ schedule_shape p (trace st) /\
  Z.of_nat (count_calls (trace st)) <= max_retries p + 1.
Proof.
  intros Hm Hrun.
  destruct (run_loop_shape p op func (S (Z.to_nat (max_retries p + 1)))
              (mkLoop 0 None []) o st) as [Ho Hs]; simpl; try lia;
    [reflexivity|exact Hrun|].
  split; [exact Ho|]. split; [exact Hs|]. apply schedule_shape_calls; assumption.
Qed.

(** A backend that throttles every call, with the default settings
    ([max_retries = 5], [retry_delay = 1], exponential backoff). *)
Definition default_policy : RetryPolicy := mkPolicy 5 1 true.
Definition always_throttled (k : nat) : CallResult unit :=
  Raised (ClientError (Some "SlowDown"%string) "Please reduce your request rate."%string).

(** Six calls, sleeps 1, 2, 4, 8, 16 before the retries, and one more
    sleep of 32 after the last failed call before the error is raised. *)
Example execute_always_throttled :
  execute default_policy "list_objects" always_throttled =
  (RetErr (mkAWSError "Please reduce your request rate." (Some "SlowDown") "list_objects"),
   mkLoop 6 (Some (mkAWSError "Please reduce your request rate." (Some "SlowDown") "list_objects"))
     [Call; Sleep 1; Call; Sleep 2; Call; Sleep 4; Call; Sleep 8;
      Call; Sleep 16; Call; Sleep 32])%string.
Proof. vm_compute. reflexivity. Qed.

Lemma execute_retry_schedule_witness :
  exists (o : Outcome unit) (st : LoopState),
  execute default_policy "list_objects"%string always_throttled = (o, st) /\
  (o <> OutOfFuel /\ schedule_shape default_policy (trace st) /\
   Z.of_nat (count_calls (trace st)) <= max_retries default_policy + 1).
Proof.
  eexists _, _. split; [vm_compute; reflexivity|].
  apply (execute_retry_schedule default_policy "list_objects"%string always_throttled).
  - vm_compute. discriminate.
  - vm_compute. reflexivity.
Defined.

Lemma is_retryable_spec c :
  is_retryable c = true <-> exists s, c = Some s /\ In s retryable_codes.
Proof.
  destruct c as [s|]; unfold is_retryable.
  - rewrite existsb_exists. split.
    + intros [r [Hin Heq]]. apply String.eqb_eq in Heq. subst. eauto.
    + intros [s' [[= <-] Hin]]. exists s. split; [exact Hin|apply String.eqb_refl].
  - split; [discriminate|]. intros [s [Hs _]]. discriminate.
Qed.

(** C2: when the backend call fails with a [ClientError] whose code is
    not one of the retryable codes, [_execute_with_retry] raises an
    [AWSError] carrying that code, the message and the operation name
    after that single call: no retry and no sleep. *)
Theorem execute_fatal_no_retry {A} (p : RetryPolicy) (op : string)
    (func : nat -> CallResult A) (c : option string) (m : string) :
  0 <= max_retries p ->
  func 0%nat = Raised (ClientError c m) ->
  is_retryable c = false ->
  execute p op func = (RetErr (mkAWSError m c op), mkLoop 0 None [Call]).
Proof.
  intros Hm Hf Hc. unfold execute.
  replace (Z.to_nat (max_retries p + 1)) with (S (Z.to_nat (max_retries p))) by lia.
  cbn [run_loop retries].
  replace (0 <=? max_retries p) with true by (symmetry; apply Z.leb_le; lia).
  change (Z.to_nat 0) with 0%nat. rewrite Hf, Hc. reflexivity.
Qed.

Definition access_denied_first (k : nat) : CallResult unit :=
  match k with
  | O => Raised (ClientError (Some "AccessDenied"%string) "Access Denied"%string)
  | _ => Returned tt
  end.

Lemma execute_fatal_no_retry_witness :
  0 <= max_retries default_policy /\
  access_denied_first 0%nat = Raised (ClientError (Some "AccessDenied"%string) "Access Denied"%string) /\
  is_retryable (Some "AccessDenied"%string) = false /\
  execute default_policy "head_object"%string access_denied_first =
  (RetErr (mkAWSError "Access Denied" (Some "AccessDenied") "head_object"),
   mkLoop 0 None [Call])%string.
Proof.
  split; [vm_compute; discriminate|]. split; [reflexivity|]. split; [reflexivity|].
  apply execute_fatal_no_retry; [vm_compute; discriminate|reflexivity|reflexivity].
Defined.

End RetryProofs.

Module ListingProofs.
Import Listing.

Section Pages.
Variable client : ListingClient.
Variable call : nat -> ListRequest -> option Page.
Variables (bucket prefix delimiter : string).

Definition with_token (r : ListRequest) (t : option string) : ListRequest :=
  mkRequest (req_Bucket r) (req_MaxKeys r) (req_Delimiter r) (req_Prefix r) t.

(** The token the [k]-th request must carry: none for the first page,
    the [NextContinuationToken] of page [k - 1] afterwards. *)
Definition prev_token (f : list (ListRequest * Page)) (k : nat) : option string :=
  match k with
  | O => None
  | S k' => match nth_error f k' with
            | Some (_, pg) => NextContinuationToken pg
            | None => None
            end
  end.

Definition page_entries (x : ListRequest * Page) : list ObjectEntry :=
  map to_entry (Contents (snd x)).

Definition page_prefixes (x : ListRequest * Page) : list PrefixEntry :=
  map mkPrefixEntry (List.filter (keep_prefix prefix) (CommonPrefixes (snd x))).

(** Backend contract: a truncated page carries a (non-empty) token. *)
Definition tokens_on_truncation : Prop :=
  forall k r pg, call k r = Some pg -> IsTruncated pg = true ->
                 truthy (NextContinuationToken pg) = true.

Definition calls_ok (f : list (ListRequest * Page)) : Prop :=
  forall k r pg, nth_error f k = Some (r, pg) -> call k r = Some pg.

Definition requests_ok (f : list (ListRequest * Page)) : Prop :=
  forall k r pg, nth_error f k = Some (r, pg) ->
    r = with_token (initial_params client bucket prefix delimiter) (prev_token f k).

Definition accum_ok (st : LoopState) : Prop :=
  all_objects st = flat_map page_entries (fetched st) /\
  all_prefixes st = flat_map page_prefixes (fetched st).

Definition loop_inv (st : LoopState) : Prop :=
  page_count st = Z.of_nat (length (fetched st)) /\
  accum_ok st /\ calls_ok (fetched st) /\ requests_ok (fetched st) /\
  (forall k r pg, nth_error (fetched st) k = Some (r, pg) -> IsTruncated pg = true) /\
  continuation_token st = prev_token (fetched st) (length (fetched st)) /\
  (fetched st = [] -> params st = initial_params client bucket prefix delimiter) /\
  (exists t, params st = with_token (initial_params client bucket prefix delimiter) t).

Definition loop_post (st : LoopState) : Prop :=
  (1 <= length (fetched st))%nat /\
  Z.of_nat (length (fetched st)) <= Z.max 1 (max_pages client) /\
  accum_ok st /\ calls_ok (fetched st) /\ requests_ok (fetched st) /\
  (forall k r pg, nth_error (fetched st) k = Some (r, pg) ->
     (S k < length (fetched st))%nat -> IsTruncated pg = true) /\
  (forall r pg, nth_error (fetched st) (length (fetched st) - 1) = Some (r, pg) ->
     IsTruncated pg = false \/ Z.of_nat (length (fetched st)) >= max_pages client).

Lemma nth_error_snoc {T} (l : list T) x k :
  nth_error (l ++ [x]) k =
  if (k <? length l)%nat then nth_error l k
  else if (k =? length l)%nat then Some x else None.
Proof.
  destruct (Nat.ltb_spec k (length l)).
  - apply nth_error_app1. exact H.
  - rewrite nth_error_app2 by exact H.
    destruct (Nat.eqb_spec k (length l)).
    + subst. rewrite Nat.sub_diag. reflexivity.
    + destruct (k - length l)%nat eqn:E; [lia|]. simpl. destruct n0; reflexivity.
Qed.

Lemma prev_token_snoc f x k :
  (k <= length f)%nat -> prev_token (f ++ [x]) k = prev_token f k.
Proof.
  intros Hk. destruct k as [|k]; [reflexivity|]. simpl.
  rewrite nth_error_snoc. destruct (Nat.ltb_spec k (length f)); [reflexivity|lia].
Qed.

Lemma flat_map_snoc {T U} (g : T -> list U) l x :
  flat_map g (l ++ [x]) = flat_map g l ++ g x.
Proof. rewrite flat_map_app. simpl. rewrite app_nil_r. reflexivity. Qed.

Lemma with_token_twice r t t' : with_token (with_token r t) t' = with_token r t'.
Proof. reflexivity. Qed.

Lemma initial_params_token :
  initial_params client bucket prefix delimiter =
  with_token (initial_params client bucket prefix delimiter) None.
Proof. reflexivity. Qed.

(** The request the loop body sends, in the terms of [prev_token]. *)
Lemma loop_request st :
  tokens_on_truncation -> loop_inv st ->
  (if truthy (continuation_token st)
   then mkRequest (req_Bucket (params st)) (req_MaxKeys (params st))
          (req_Delimiter (params st)) (req_Prefix (params st))
          (continuation_token st)
   else params st) =
  with_token (initial_params client bucket prefix delimiter)
             (prev_token (fetched st) (length (fetched st))).
Proof.
  intros Htok (_ & _ & Hcalls & _ & Htr & Hct & Hempty & [t Hp]).
  destruct (fetched st) as [|x f] eqn:Ef.
  - rewrite Hct. simpl. rewrite Hempty by reflexivity. reflexivity.
  - assert (Hlast : exists r pg, nth_error (x :: f) (length f) = Some (r, pg)).
    { destruct (nth_error (x :: f) (length f)) as [[r pg]|] eqn:E.
      - eauto.
      - apply nth_error_None in E. simpl in E. lia. }
    destruct Hlast as (r & pg & Hl).
    assert (Htruthy : truthy (continuation_token st) = true).
    { rewrite Hct. simpl length. cbn [prev_token]. rewrite Hl.
      eapply Htok; [apply Hcalls; exact Hl|].
      eapply Htr. exact Hl. }
    rewrite Htruthy, Hp, <- Hct. reflexivity.
Qed.

End Pages.

Section Loop.
Variable client : ListingClient.
Variable call : nat -> ListRequest -> option Page.
Variables (bucket prefix delimiter : string).

Lemma snoc_facts st ps resp :
  loop_inv client call bucket prefix delimiter st ->
  ps = with_token (initial_params client bucket prefix delimiter)
                  (prev_token (fetched st) (length (fetched st))) ->
  call (length (fetched st)) ps = Some resp ->
  calls_ok call (fetched st ++ [(ps, resp)]) /\
  requests_ok client bucket prefix delimiter (fetched st ++ [(ps, resp)]).
Proof.
  intros (_ & _ & Hcalls & Hreq & _) Hps Hc. split.
  - intros k r pg Hk. rewrite nth_error_snoc in Hk.
    destruct (Nat.ltb_spec k (length (fetched st))); [apply Hcalls; exact Hk|].
    destruct (Nat.eqb_spec k (length (fetched st))); [|discriminate].
    injection Hk as <- <-. subst k. exact Hc.
  - intros k r pg Hk. pose proof Hk as Hk'. rewrite nth_error_snoc in Hk.
    destruct (Nat.ltb_spec k (length (fetched st))).
    + rewrite prev_token_snoc by lia. apply (Hreq k r pg Hk).
    + destruct (Nat.eqb_spec k (length (fetched st))); [|discriminate].
      injection Hk as <- <-. subst k. rewrite prev_token_snoc by lia. exact Hps.
Qed.

Lemma list_loop_post fuel :
  forall st st',
  tokens_on_truncation call ->
  loop_inv client call bucket prefix delimiter st ->
  (Z.of_nat (length (fetched st)) < max_pages client \/ fetched st = []) ->
  list_loop client call prefix fuel st = Some st' ->
  loop_post client call bucket prefix delimiter st'.
Proof.
  induction fuel as [|fuel IH]; intros st st' Htok Hinv Hpre Hrun; [discriminate|].
  cbn [list_loop] in Hrun.
  rewrite (loop_request client call bucket prefix delimiter st Htok Hinv) in Hrun.
  set (ps := with_token _ _) in Hrun.
  destruct (call (length (fetched st)) ps) as [resp|] eqn:Ec; [|discriminate].
  destruct (snoc_facts st ps resp Hinv eq_refl Ec) as [Hcalls' Hreq'].
  pose proof Hinv as (Hpc & [Hobj Hpfx] & _ & _ & Htr & _).
  destruct (negb (IsTruncated resp) || (max_pages client <=? page_count st + 1))
    eqn:Hbrk.
  - injection Hrun as <-. repeat split; simpl; rewrite ?length_app; simpl.
    + lia.
    + destruct Hpre as [Hp|Hp]; [lia|rewrite Hp; simpl; lia].
    + rewrite flat_map_snoc, Hobj. reflexivity.
    + rewrite flat_map_snoc, Hpfx. reflexivity.
    + exact Hcalls'.
    + exact Hreq'.
    + intros k r pg Hk Hlt. rewrite nth_error_snoc in Hk.
      destruct (Nat.ltb_spec k (length (fetched st))); [|lia].
      eapply Htr. exact Hk.
    + intros r pg Hk. rewrite nth_error_snoc in Hk.
      replace (length (fetched st) + 1 - 1)%nat with (length (fetched st)) in Hk by lia.
      rewrite Nat.ltb_irrefl, Nat.eqb_refl in Hk. injection Hk as <- <-.
      apply orb_true_iff in Hbrk. destruct Hbrk as [Ht|Hm].
      * left. apply negb_true_iff. exact Ht.
      * right. apply Z.leb_le in Hm. lia.
  - apply orb_false_iff in Hbrk. destruct Hbrk as [Ht Hm].
    apply negb_false_iff in Ht. apply Z.leb_gt in Hm.
    eapply IH; [exact Htok| |left|exact Hrun]; simpl; rewrite ?length_app; simpl.
    2: lia.
    repeat split; simpl.
    + rewrite length_app. simpl. lia.
    + rewrite flat_map_snoc, Hobj. reflexivity.
    + rewrite flat_map_snoc, Hpfx. reflexivity.
    + exact Hcalls'.
    + exact Hreq'.
    + intros k r pg Hk. rewrite nth_error_snoc in Hk.
      destruct (Nat.ltb_spec k (length (fetched st))); [eapply Htr; exact Hk|].
      destruct (Nat.eqb_spec k (length (fetched st))); [|discriminate].
      injection Hk as <- <-. exact Ht.
    + rewrite length_app. simpl. rewrite Nat.add_1_r. cbn [prev_token].
      rewrite nth_error_snoc, Nat.ltb_irrefl, Nat.eqb_refl. reflexivity.
    + intros Hnil. destruct (fetched st); discriminate.
    + exists (prev_token (fetched st) (length (fetched st))). reflexivity.
Qed.

End Loop.


Section Results.
Variable client : ListingClient.
Variable call : nat -> ListRequest -> option Page.
Variables (bucket prefix delimiter : string).

Lemma list_loop_accum fuel :
  forall st st',
  accum_ok prefix st -> list_loop client call prefix fuel st = Some st' ->
  accum_ok prefix st'.
Proof.
  induction fuel as [|fuel IH]; intros st st' [Hobj Hpfx] Hrun; [discriminate|].
  cbn [list_loop] in Hrun.
  destruct (call _ _) as [resp|]; [|discriminate].
  destruct (_ || _).
  - injection Hrun as <-. split; simpl; rewrite flat_map_snoc, ?Hobj, ?Hpfx; reflexivity.
  - eapply IH; [|exact Hrun]. split; simpl; rewrite flat_map_snoc, ?Hobj, ?Hpfx; reflexivity.
Qed.

Lemma list_loop_total fuel :
  forall st,
  (forall k r, call k r <> None) ->
  1 <= Z.of_nat fuel -> max_pages client - page_count st <= Z.of_nat fuel ->
  exists st', list_loop client call prefix fuel st = Some st'.
Proof.
  induction fuel as [|fuel IH]; intros st Hcall H1 Hf; [lia|].
  cbn [list_loop].
  destruct (call _ _) as [resp|] eqn:E; [|exfalso; eapply Hcall; exact E].
  destruct (_ || _) eqn:Hbrk; [eauto|].
  apply orb_false_iff in Hbrk. destruct Hbrk as [_ Hm]. apply Z.leb_gt in Hm.
  apply IH; [exact Hcall| |]; simpl; lia.
Qed.

Lemma keys_of_entries f :
  map entry_key (flat_map page_entries f) =
  flat_map (fun x => map Key (Contents (snd x))) f.
Proof.
  induction f as [|x f IH]; [reflexivity|].
  simpl. rewrite map_app, IH. unfold page_entries. rewrite map_map. reflexivity.
Qed.

End Results.

(** C3: [list_objects] fetches its pages one after the other, the first
    without a token and each next one with the [NextContinuationToken]
    of the page before (given the backend's contract that a truncated
    page carries a token), stops at the first non-truncated page or after
    [max_pages] pages, and returns as [objects] exactly the entries of
    all fetched pages concatenated in page order; so it has no duplicate
    key exactly when the pages together have none. *)
Theorem list_objects_pages (client : ListingClient)
    (call : nat -> ListRequest -> option Page)
    (bucket prefix delimiter : string) (res : ListResult)
    (f : list (ListRequest * Page)) :
  1 <= max_pages client ->
  tokens_on_truncation call ->
  list_objects client call bucket prefix delimiter = Some (res, f) ->
  (1 <= length f)%nat /\ Z.of_nat (length f) <= max_pages client /\
  calls_ok call f /\
  requests_ok client bucket prefix delimiter f /\
  (forall k r pg, nth_error f k = Some (r, pg) ->
     (S k < length f)%nat -> IsTruncated pg = true) /\
  (forall r pg, nth_error f (length f - 1) = Some (r, pg) ->
     IsTruncated pg = false \/ Z.of_nat (length f) = max_pages client) /\
  objects res = flat_map page_entries f /\
  (NoDup (map entry_key (objects res)) <->
   NoDup (flat_map (fun x => map Key (Contents (snd x))) f)).
Proof.
  intros Hmp Htok Hlist. unfold list_objects in Hlist.
  destruct (list_loop _ _ _ _ _) as [st|] eqn:Hrun; [|discriminate].
  injection Hlist as <- <-.
  destruct (list_loop_post client call bucket prefix delimiter
              (S (Z.to_nat (max_pages client)))
              (mkLS (initial_params client bucket prefix delimiter) None 0 [] [] [])
              st Htok)
    as (H1 & H2 & [Hobj _] & Hc & Hr & Ht & Hl); [| |exact Hrun|].
  { repeat split; simpl; try reflexivity.
    - intros k r pg Hk. destruct k; discriminate.
    - intros k r pg Hk. destruct k; discriminate.
    - intros k r pg Hk. destruct k; discriminate.
    - eexists. reflexivity. }
  { right. reflexivity. }
  simpl. repeat split; try assumption.
  - lia.
  - intros r pg Hk. destruct (Hl r pg Hk); [left; assumption|right; lia].
  - rewrite Hobj, keys_of_entries. tauto.
  - rewrite Hobj, keys_of_entries. tauto.
Qed.


(** A two-page listing of [photos/]: the first page is truncated and
    carries token [t1]; the second is the last. The directory marker
    object [photos/] itself comes back in [Contents], as S3 returns it. *)
Definition page1 : Page :=
  mkPage [mkS3Object "photos/" 0; mkS3Object "photos/a.jpg" 10]
         ["photos/"; "photos/2023/"] true (Some "t1")%string.
Definition page2 : Page :=
  mkPage [mkS3Object "photos/b.jpg" 20] ["photos/2024/"] false None%string.
Definition two_pages (k : nat) (r : ListRequest) : option Page :=
  match k with
  | O => Some page1
  | 1%nat => Some page2
  | _ => None
  end.

Example two_pages_listing :
  option_map (fun x => (map entry_key (objects (fst x)), map prefix_value (prefixes (fst x)),
                        map (fun y => req_ContinuationToken (fst y)) (snd x)))
    (list_objects default_listing_client two_pages "bucket" "photos/" "/") =
  Some (["photos/"; "photos/a.jpg"; "photos/b.jpg"], ["photos/2023/"; "photos/2024/"],
        [None; Some "t1"])%string.
Proof. vm_compute. reflexivity. Qed.

Lemma two_pages_tokens : tokens_on_truncation two_pages.
Proof.
  intros k r pg Hc Ht. destruct k as [|[|k]]; simpl in Hc; try discriminate;
    injection Hc as <-; [reflexivity|discriminate].
Qed.

Lemma list_objects_pages_witness :
  1 <= max_pages default_listing_client /\ tokens_on_truncation two_pages /\
  exists res f,
    list_objects default_listing_client two_pages "bucket" "photos/" "/" = Some (res, f) /\
    objects res = flat_map page_entries f /\
    Z.of_nat (length f) <= max_pages default_listing_client.
Proof.
  split; [vm_compute; discriminate|]. split; [exact two_pages_tokens|].
  eexists _, _. split; [vm_compute; reflexivity|].
  destruct (list_objects_pages default_listing_client two_pages "bucket" "photos/" "/"
              _ _ ltac:(vm_compute; discriminate) two_pages_tokens
              ltac:(vm_compute; reflexivity))
    as (_ & H2 & _ & _ & _ & _ & H7 & _).
  split; assumption.
Defined.

(** C9 (counterexample): listing [photos/] with delimiter [/] where the
    backend returns the directory marker [photos/] among [Contents]: the
    returned objects contain an entry that ends in the delimiter and is
    exactly the queried prefix. *)
Lemma list_objects_self_marker_kept :
  exists res f,
    list_objects default_listing_client two_pages "bucket" "photos/" "/" = Some (res, f) /\
    exists e, In e (objects res) /\ entry_key e = "photos/"%string /\
              ends_with "/" (entry_key e) = true.
Proof.
  eexists _, _. split; [vm_compute; reflexivity|].
  exists (mkEntry "photos/" 0 true). split; [left; reflexivity|].
  split; reflexivity.
Qed.

(** C9 (amended): whatever the backend returns, every directory prefix
    that [list_objects] returns is non-empty and differs from the queried
    prefix, while the returned objects are every [Contents] entry of every
    fetched page, unfiltered (a marker object equal to the queried prefix
    is kept). *)
Theorem list_objects_prefix_filter (client : ListingClient)
    (call : nat -> ListRequest -> option Page)
    (bucket prefix delimiter : string) (res : ListResult)
    (f : list (ListRequest * Page)) :
  list_objects client call bucket prefix delimiter = Some (res, f) ->
  (forall pe, In pe (prefixes res) ->
     prefix_value pe <> ""%string /\ prefix_value pe <> prefix) /\
  prefixes res = flat_map (page_prefixes prefix) f /\
  objects res = flat_map page_entries f.
Proof.
  intros Hlist. unfold list_objects in Hlist.
  destruct (list_loop _ _ _ _ _) as [st|] eqn:Hrun; [|discriminate].
  injection Hlist as <- <-.
  destruct (list_loop_accum client call prefix _
              (mkLS (initial_params client bucket prefix delimiter) None 0 [] [] [])
              st ltac:(split; reflexivity) Hrun)
    as [Hobj Hpfx].
  simpl. rewrite Hpfx. split; [|split; [reflexivity|exact Hobj]].
  intros pe Hin. apply in_flat_map in Hin. destruct Hin as [x [_ Hin]].
  unfold page_prefixes in Hin. apply in_map_iff in Hin.
  destruct Hin as [v [<- Hin]]. apply filter_In in Hin. destruct Hin as [_ Hk].
  unfold keep_prefix in Hk. apply andb_true_iff in Hk. destruct Hk as [H1 H2].
  apply negb_true_iff, String.eqb_neq in H1. apply negb_true_iff, String.eqb_neq in H2.
  simpl. split; assumption.
Qed.

Lemma list_objects_prefix_filter_witness :
  exists res f,
    list_objects default_listing_client two_pages "bucket" "photos/" "/" = Some (res, f) /\
    (forall pe, In pe (prefixes res) ->
       prefix_value pe <> ""%string /\ prefix_value pe <> "photos/"%string).
Proof.
  eexists _, _. split; [vm_compute; reflexivity|].
  exact (proj1 (list_objects_prefix_filter default_listing_client two_pages
                  "bucket" "photos/" "/" _ _ ltac:(vm_compute; reflexivity))).
Defined.

End ListingProofs.

Module ProgressProofs.
Import Progress.

Lemma nondecreasing_snoc (l : list Z) (x : Z) :
  nondecreasing l = true -> Forall (fun v => v <= x) l ->
  nondecreasing (l ++ [x]) = true.
Proof.
  induction l as [|a l IH]; intros Hn Hf; [reflexivity|].
  inversion Hf as [|? ? Ha Hl]; subst.
  destruct l as [|b l].
  - simpl. apply andb_true_iff. split; [apply Z.leb_le; exact Ha|reflexivity].
  - simpl in Hn |- *. apply andb_true_iff in Hn. destruct Hn as [Hab Hn].
    apply andb_true_iff. split; [exact Hab|]. apply IH; assumption.
Qed.

Lemma nondecreasing_cons (x : Z) (l : list Z) :
  nondecreasing l = true -> Forall (fun v => x <= v) l ->
  nondecreasing (x :: l) = true.
Proof.
  intros Hn Hf. destruct l as [|y l]; [reflexivity|].
  inversion Hf; subst. simpl. apply andb_true_iff. split; [apply Z.leb_le; assumption|exact Hn].
Qed.

(** Invariant of the worker callback's state for a given [file_size]. *)
Definition WInv (fs : Z) (w : WState) : Prop :=
  0 <= w_bytes w /\
  Forall (fun v => 0 <= v <= 99) (w_emitted w) /\
  nondecreasing (w_emitted w) = true /\
  (0 < fs -> Forall (fun v => v <= Z.min 99 (Z.quot (w_bytes w * 100) fs)) (w_emitted w)) /\
  (fs <= 0 -> w_emitted w = []).

Lemma quot_mono_nonneg a b fs :
  0 <= a <= b -> 0 < fs -> Z.quot (a * 100) fs <= Z.quot (b * 100) fs.
Proof.
  intros Hab Hfs. rewrite !Z.quot_div_nonneg by lia.
  apply Z.div_le_mono; lia.
Qed.

Lemma quot_nonneg a fs : 0 <= a -> 0 < fs -> 0 <= Z.quot (a * 100) fs.
Proof. intros Ha Hfs. apply Z.quot_pos; lia. Qed.

Lemma worker_callback_inv fs ev amount w :
  0 <= amount -> WInv fs w -> WInv fs (snd (worker_callback fs ev amount w)).
Proof.
  intros Ham (Hb & Hr & Hn & Hbound & Hneg). unfold WInv, worker_callback.
  destruct (ev_cancelled ev); [exact (conj Hb (conj Hr (conj Hn (conj Hbound Hneg))))|].
  assert (Hmono : 0 < fs -> Forall (fun v => v <= Z.min 99 (Z.quot ((w_bytes w + amount) * 100) fs))
                             (w_emitted w)).
  { intros Hfs. eapply Forall_impl; [exact (Hbound Hfs)|]. intros v Hv. simpl in Hv.
    pose proof (quot_mono_nonneg (w_bytes w) (w_bytes w + amount) fs ltac:(lia) Hfs). lia. }
  destruct (Z.ltb_spec 0 fs) as [Hfs|Hfs].
  - destruct (_ && _); cbn [snd w_bytes w_emitted].
    + pose proof (quot_nonneg (w_bytes w + amount) fs ltac:(lia) Hfs).
      refine (conj _ (conj _ (conj _ (conj _ _)))).
      * lia.
      * apply Forall_app. split; [exact Hr|]. constructor; [lia|constructor].
      * apply nondecreasing_snoc; [exact Hn|exact (Hmono Hfs)].
      * intros _. apply Forall_app. split; [exact (Hmono Hfs)|]. constructor; [lia|constructor].
      * intros. lia.
    + refine (conj _ (conj Hr (conj Hn (conj (fun _ => Hmono Hfs) Hneg)))). lia.
  - cbn [snd w_bytes w_emitted].
    refine (conj _ (conj Hr (conj Hn (conj _ Hneg)))); [lia|]. intros. lia.
Qed.

Lemma winv_init env fs : WInv fs (init_w env).
Proof.
  refine (conj _ (conj _ (conj _ (conj _ _)))); simpl;
    try lia; try (intros; constructor); reflexivity.
Qed.

Lemma run_upload_cbs_inv total fs evs :
  forall a w a' w',
  0 <= a_last a -> WInv fs w ->
  run_upload_cbs total fs evs (a, w) = Some (a', w') -> WInv fs w'.
Proof.
  induction evs as [|ev evs IH]; intros a w a' w' Ha Hw Hrun.
  - injection Hrun as <- <-. exact Hw.
  - simpl in Hrun. unfold upload_cb_step in Hrun.
    destruct (upload_percent total (a_done a + ev_amount ev)) as [pc|]; [|discriminate].
    destruct (Z.ltb_spec (a_last a) pc).
    + destruct (worker_callback fs ev pc w) as [ret w1] eqn:Ewc.
      eapply IH; [| |exact Hrun]; simpl; [lia|].
      replace w1 with (snd (worker_callback fs ev pc w)) by (rewrite Ewc; reflexivity).
      apply worker_callback_inv; [lia|exact Hw].
    + eapply IH; [| |exact Hrun]; simpl; [lia|exact Hw].
Qed.

Lemma download_cb_step_inv total fs ev s :
  0 <= a_last (fst s) -> WInv fs (snd s) ->
  0 <= a_last (fst (download_cb_step total fs ev s)) /\
  WInv fs (snd (download_cb_step total fs ev s)).
Proof.
  destruct s as [a w]. simpl. intros Ha Hw. unfold download_cb_step.
  destruct (ev_stop ev || a_stop a); [split; assumption|].
  destruct (Z.ltb_spec (a_last a) (download_percent total (a_done a + ev_amount ev))).
  - pose proof (worker_callback_inv fs ev (download_percent total (a_done a + ev_amount ev)) w
                  ltac:(lia) Hw) as Hinv.
    destruct (worker_callback fs ev _ w) as [ret w1]. simpl. split; [lia|exact Hinv].
  - simpl. split; [exact Ha|exact Hw].
Qed.

Lemma run_download_cbs_inv total fs evs :
  forall s,
  0 <= a_last (fst s) -> WInv fs (snd s) ->
  WInv fs (snd (run_download_cbs total fs evs s)).
Proof.
  unfold run_download_cbs.
  induction evs as [|ev evs IH]; intros s Ha Hw; [exact Hw|].
  cbn [fold_left].
  destruct (download_cb_step_inv total fs ev s Ha Hw) as [Ha' Hw'].
  apply IH; assumption.
Qed.

Lemma upload_file_inv env fs : WInv fs (snd (upload_file env fs)).
Proof.
  unfold upload_file. destruct (negb (local_exists env)); [apply winv_init|].
  destruct (run_upload_cbs _ _ _ _) as [[a w]|] eqn:E; [|apply winv_init].
  simpl. eapply run_upload_cbs_inv; [| |exact E]; [simpl; lia|apply winv_init].
Qed.

Lemma download_file_inv env fs : WInv fs (snd (download_file env fs)).
Proof.
  unfold download_file. destruct (negb (head_ok env)); [apply winv_init|].
  pose proof (run_download_cbs_inv (size env) fs (events env) (mkAState 0 0 false, init_w env)
                ltac:(simpl; lia) (winv_init env fs)) as H.
  destruct (run_download_cbs _ _ _ _) as [a w].
  destruct (negb (transfer_ok env)); [exact H|].
  destruct (_ || _); exact H.
Qed.

Lemma progress_values_app s1 s2 :
  progress_values (s1 ++ s2) = progress_values s1 ++ progress_values s2.
Proof.
  induction s1 as [|[] s1 IH]; simpl; rewrite ?IH; reflexivity.
Qed.

Lemma progress_values_map l : progress_values (map SProgress l) = l.
Proof. induction l as [|x l IH]; simpl; rewrite ?IH; reflexivity. Qed.

(** The shape every single-file worker run has: a prefix of values in
    [0, 99], non-decreasing, optionally followed by one [100] that is
    only there when the transfer call returned success. *)
Definition progress_ok (vs : list Z) (succeeded : Prop) : Prop :=
  nondecreasing vs = true /\ Forall (fun v => 0 <= v <= 100) vs /\
  exists pre, Forall (fun v => 0 <= v <= 99) pre /\
    (vs = pre \/ (vs = pre ++ [100] /\ succeeded)).

Lemma progress_ok_build (zeros emitted : list Z) (tail : list Signal) (succeeded : Prop) :
  Forall (fun v => v = 0) zeros ->
  Forall (fun v => 0 <= v <= 99) emitted -> nondecreasing emitted = true ->
  (progress_values tail = [] \/ (progress_values tail = [100] /\ succeeded)) ->
  progress_ok (zeros ++ emitted ++ progress_values tail) succeeded.
Proof.
  intros Hz Hr Hn Ht.
  assert (Hpn : nondecreasing (zeros ++ emitted) = true).
  { induction Hz as [|z zs Hz0 Hzs IH]; [exact Hn|].
    simpl app. subst z. apply nondecreasing_cons; [exact IH|].
    apply Forall_app. split.
    + eapply Forall_impl; [exact Hzs|]. intros v Hv. cbv beta in *. lia.
    + eapply Forall_impl; [exact Hr|]. intros v Hv. cbv beta in *. lia. }
  assert (Hpre : Forall (fun v => 0 <= v <= 99) (zeros ++ emitted)).
  { apply Forall_app. split; [|exact Hr]. eapply Forall_impl; [exact Hz|]. intros v Hv. cbv beta in *. lia. }
  rewrite app_assoc.
  destruct Ht as [Ht|[Ht Hs]]; rewrite Ht.
  - rewrite app_nil_r. repeat split; [exact Hpn| |].
    + eapply Forall_impl; [exact Hpre|]. intros v Hv. cbv beta in *. lia.
    + exists (zeros ++ emitted). split; [exact Hpre|left; reflexivity].
  - repeat split.
    + apply nondecreasing_snoc; [exact Hpn|]. eapply Forall_impl; [exact Hpre|]. intros v Hv. cbv beta in *. lia.
    + apply Forall_app. split; [|constructor; [lia|constructor]].
      eapply Forall_impl; [exact Hpre|]. intros v Hv. cbv beta in *. lia.
    + exists (zeros ++ emitted). split; [exact Hpre|right; split; [reflexivity|exact Hs]].
Qed.

Lemma progress_ok_nil (succeeded : Prop) : progress_ok [] succeeded.
Proof.
  refine (conj eq_refl (conj (List.Forall_nil _) _)).
  exists []. split; [constructor|left; reflexivity].
Qed.

Lemma progress_ok_zero (succeeded : Prop) : progress_ok [0] succeeded.
Proof.
  refine (conj eq_refl (conj _ _)); [repeat constructor; lia|].
  exists [0]. split; [repeat constructor; lia|left; reflexivity].
Qed.

Lemma worker_tail_values (r : option bool) (cancelled : bool) (succeeded : Prop) :
  (r = Some true -> succeeded) ->
  let tail := match r with
              | None => [SError]
              | Some success =>
                if cancelled || negb success then []
                else [SProgress 100; SSuccess; SFinished]
              end in
  progress_values tail = [] \/ (progress_values tail = [100] /\ succeeded).
Proof.
  intros Hs. destruct r as [[]|]; simpl; [|left; destruct cancelled; reflexivity|left; reflexivity].
  destruct cancelled; simpl; [left; reflexivity|right; split; [reflexivity|apply Hs; reflexivity]].
Qed.

(** C4: for every single-file upload or download worker run (whether or
    not the [format_size] lookup succeeds), the emitted progress values
    are non-decreasing and within [0, 100]; all of them are at most 99
    except possibly one final 100, which is emitted only when the
    underlying [upload_file]/[download_file] call returned [True]. *)
Theorem transfer_progress_monotone (has_format_size : bool) (env : TransferEnv) :
  progress_ok (progress_values (upload_worker_run has_format_size env))
    (exists fs, fst (upload_file env fs) = Some true) /\
  progress_ok (progress_values (download_worker_run has_format_size env))
    (exists fs, fst (download_file env fs) = Some true).
Proof.
  split.
  - unfold upload_worker_run.
    destruct (cancelled_at_start env); [apply progress_ok_nil|].
    destruct has_format_size; [|apply progress_ok_zero]. cbn [negb].
    set (fs := if local_exists env then size env else 0).
    pose proof (upload_file_inv env fs) as (_ & Hr & Hn & _).
    destruct (upload_file env fs) as [r w] eqn:Eu. simpl in Hr, Hn.
    rewrite progress_values_app, progress_values_app, progress_values_map.
    change (progress_values [SProgress 0; SProgress 0]) with ([0] ++ [0]).
    rewrite <- app_assoc.
    apply (progress_ok_build [0; 0]); [repeat constructor|exact Hr|exact Hn|].
    apply worker_tail_values. intros ->. exists fs. rewrite Eu. reflexivity.
  - unfold download_worker_run.
    destruct (cancelled_at_start env); [apply progress_ok_nil|].
    set (fs := if metadata_ok env && has_format_size then size env else 0).
    set (probe := if metadata_ok env && has_format_size then [SProgress 0] else []).
    pose proof (download_file_inv env fs) as (_ & Hr & Hn & _).
    destruct (download_file env fs) as [r w] eqn:Ed. simpl in Hr, Hn.
    rewrite progress_values_app, progress_values_app, progress_values_app, progress_values_map.
    rewrite app_assoc.
    apply (progress_ok_build (progress_values ([SProgress 0] ++ probe)));
      [|exact Hr|exact Hn|].
    + unfold probe. destruct (_ && _); repeat constructor.
    + apply worker_tail_values. intros ->. exists fs. rewrite Ed. reflexivity.
Qed.

(** A zero-byte local file that exists, with one (zero-amount) callback
    invocation; nothing is cancelled and the transfer routine returns. *)
Definition zero_byte_env : TransferEnv :=
  mkEnv false true 0 true true [mkCbEvent 0 0 false false] true false false 0.

(** C8 (code bug): a zero-byte upload through [UploadWorker.run] that is
    not cancelled at the start reports progress 0 and then an error, and
    never the 0%-to-100% transition: [self.aws_client.format_size] does not
    exist on [AWSClient]. Independently, [upload_file]'s [ProgressCallback]
    divides by the zero [total_size] whenever it is invoked (unlike the
    download callback, which guards it), so [upload_file] raises. *)
Theorem upload_zero_byte_error (env : TransferEnv) (fs : Z) :
  cancelled_at_start env = false -> size env = 0 ->
  upload_worker_run aws_client_has_format_size env = [SProgress 0; SError] /\
  (local_exists env = true -> events env <> [] -> fst (upload_file env fs) = None).
Proof.
  intros Hc Hs. split.
  - unfold upload_worker_run. rewrite Hc. reflexivity.
  - intros Hl He. unfold upload_file. rewrite Hl. cbn [negb].
    destruct (events env) as [|ev evs]; [congruence|].
    simpl. rewrite Hs. reflexivity.
Qed.

Lemma upload_zero_byte_error_witness :
  (cancelled_at_start zero_byte_env = false /\ size zero_byte_env = 0) /\
  upload_worker_run aws_client_has_format_size zero_byte_env = [SProgress 0; SError] /\
  fst (upload_file zero_byte_env 0) = None.
Proof.
  split; [split; reflexivity|].
  destruct (upload_zero_byte_error zero_byte_env 0 eq_refl eq_refl) as [H1 H2].
  split; [exact H1|]. apply H2; [reflexivity|discriminate].
Defined.

(** The download of the same zero-byte object, for contrast: the guarded
    callback emits nothing and the worker reports 0 then 100. *)
Example download_zero_byte_progress :
  progress_values (download_worker_run aws_client_has_format_size zero_byte_env) = [0; 100].
Proof. reflexivity. Qed.

End ProgressProofs.

Module CleanupProofs.
Import Cleanup.

(** C5: whenever [os.remove] succeeds, [download_file] leaves at
    [save_path] either nothing or the complete object, whatever was there
    before and however the transfer ends; when it does not return [True]
    (cancelled, or raised) nothing is left. *)
Theorem download_no_partial_file (env : DownloadEnv) (before : LocalFile) :
  remove_ok env = true ->
  (snd (download_file env before) = Absent \/ snd (download_file env before) = Complete) /\
  (fst (download_file env before) <> DReturned true -> snd (download_file env before) = Absent).
Proof.
  intros Hr.
  assert (Hrm : forall f, remove_if_exists env f = Absent)
    by (intros []; simpl; rewrite ?Hr; reflexivity).
  unfold download_file.
  destruct (head_object_ok env); cbn [negb fst snd]; [|rewrite Hrm; auto].
  destruct (makedirs_ok env); cbn [negb fst snd]; [|rewrite Hrm; auto].
  destruct (transfer env) as [|f]; cbn [fst snd]; [|rewrite Hrm; auto].
  destruct (stop_is_set env); cbn [fst snd]; [rewrite Hrm; auto|].
  split; [right; reflexivity|]. intros H. congruence.
Qed.

(** The transfer raised midway and left a partial file behind. *)
Definition interrupted_env : DownloadEnv :=
  mkDownloadEnv true true (TRaises Partial) false true.

Lemma download_no_partial_file_witness :
  remove_ok interrupted_env = true /\
  download_file interrupted_env Absent = (DRaised, Absent) /\
  snd (download_file interrupted_env Absent) = Absent.
Proof.
  split; [reflexivity|]. split; [reflexivity|].
  destruct (download_no_partial_file interrupted_env Absent eq_refl) as [_ H].
  apply H. discriminate.
Defined.

End CleanupProofs.

Module DeleteProofs.
Import Delete.
Local Open Scope nat_scope.

Section Run.
Variable env : DeleteEnv.
Variable objects : list string.
Variable total : nat.

Lemma first_batches_S n :
  first_batches objects (S n) = first_batches objects n ++ [batch_at objects n].
Proof. unfold first_batches. rewrite seq_S, map_app. reflexivity. Qed.

Lemma batch_at_length k :
  length (batch_at objects k) = Nat.min batch_size (length objects - k * batch_size).
Proof. unfold batch_at. rewrite length_firstn, length_skipn. reflexivity. Qed.

Definition progress_only (ps : list DSignal) : Prop :=
  Forall (fun s => exists p, s = DProgress p) ps.

Lemma progress_only_app ps qs :
  progress_only ps -> progress_only qs -> progress_only (ps ++ qs).
Proof. intros. apply Forall_app. split; assumption. Qed.

Lemma progress_only_one p : progress_only [DProgress p].
Proof. constructor; [exists p; reflexivity|constructor]. Qed.

(** Whatever happens, the calls issued are the first [m] batches, and the
    last of them starts inside the key list. *)
Lemma delete_loop_calls fuel :
  forall k st,
  calls st = first_batches objects k -> (k = 0 \/ (k - 1) * batch_size < length objects) ->
  exists m, calls (fst (delete_loop env objects total fuel k st)) = first_batches objects m /\
            (m = 0 \/ (m - 1) * batch_size < length objects).
Proof.
  induction fuel as [|fuel IH]; intros k st Hc Hk; [exists k; split; assumption|].
  cbn [delete_loop].
  destruct (Nat.leb_spec (length objects) (k * batch_size)) as [Hle|Hlt];
    [exists k; split; assumption|].
  destruct (cancelled_before_batch env k); [exists k; split; assumption|].
  destruct (batch_ok env k).
  - apply IH; cbn [calls]; [rewrite Hc, first_batches_S; reflexivity|right; lia].
  - exists (S k). cbn [fst calls]. rewrite Hc, first_batches_S.
    split; [reflexivity|right; lia].
Qed.

(** Batch [k] fails after batches [j .. k-1] succeed, with no cancellation. *)
Lemma delete_loop_fail k fuel :
  (forall i, cancelled_before_batch env i = false) ->
  (forall i, i < k -> batch_ok env i = true) -> batch_ok env k = false ->
  k * batch_size < length objects ->
  forall j st,
  j <= k -> k - j < fuel ->
  calls st = first_batches objects j -> deleted_objects st = j * batch_size ->
  let r := delete_loop env objects total fuel j st in
  calls (fst r) = first_batches objects (S k) /\ deleted_objects (fst r) = k * batch_size /\
  snd r = LoopError /\
  exists ps, signals (fst r) = signals st ++ ps ++ [DError] /\ progress_only ps.
Proof.
  intros Hnc Hok Hfail Hk.
  induction fuel as [|fuel IH]; intros j st Hj Hf Hc Hd; [lia|].
  cbn [delete_loop].
  destruct (Nat.leb_spec (length objects) (j * batch_size)) as [Hle|_];
    [unfold batch_size in *; lia|].
  rewrite Hnc.
  destruct (Nat.eq_dec j k) as [->|Hne].
  - rewrite Hfail. cbn [fst snd calls deleted_objects signals].
    rewrite Hc, first_batches_S. split; [reflexivity|]. split; [exact Hd|].
    split; [reflexivity|]. exists []. split; [reflexivity|constructor].
  - rewrite (Hok j) by lia.
    pose proof (batch_at_length j) as Hl.
    destruct (IH (S j) (mkDel (calls st ++ [batch_at objects j])
                  (deleted_objects st + length (batch_at objects j))
                  (signals st ++ [DProgress ((deleted_objects st + length (batch_at objects j)) * 100 / total)])))
      as (Hc' & Hd' & He' & ps & Hs' & Hps); cbn [calls deleted_objects signals];
      [lia|lia|rewrite Hc, first_batches_S; reflexivity|unfold batch_size in *; lia|].
    split; [exact Hc'|]. split; [exact Hd'|]. split; [exact He'|].
    exists ([DProgress ((deleted_objects st + length (batch_at objects j)) * 100 / total)] ++ ps).
    split; [cbn [signals] in Hs'; rewrite Hs', <- !app_assoc; reflexivity|].
    apply progress_only_app; [apply progress_only_one|exact Hps].
Qed.

(** Every batch succeeds, with no cancellation: all keys are deleted. *)
Lemma delete_loop_all_ok fuel :
  (forall i, cancelled_before_batch env i = false) -> (forall i, batch_ok env i = true) ->
  forall j st,
  length objects - j * batch_size < fuel ->
  calls st = first_batches objects j -> (j = 0 \/ (j - 1) * batch_size < length objects) ->
  deleted_objects st = Nat.min (j * batch_size) (length objects) ->
  let r := delete_loop env objects total fuel j st in
  exists m, calls (fst r) = first_batches objects m /\
    length objects <= m * batch_size /\ (m = 0 \/ (m - 1) * batch_size < length objects) /\
    deleted_objects (fst r) = length objects /\ snd r = LoopDone /\
    exists ps, signals (fst r) = signals st ++ ps /\ progress_only ps.
Proof.
  intros Hnc Hok.
  induction fuel as [|fuel IH]; intros j st Hf Hc Hj Hd; [lia|].
  cbn [delete_loop].
  destruct (Nat.leb_spec (length objects) (j * batch_size)) as [Hle|Hlt].
  - exists j. cbn [fst snd]. split; [exact Hc|]. split; [exact Hle|]. split; [exact Hj|].
    split; [lia|]. split; [reflexivity|]. exists []. rewrite app_nil_r. split; [reflexivity|constructor].
  - rewrite Hnc, Hok.
    pose proof (batch_at_length j) as Hl.
    destruct (IH (S j) (mkDel (calls st ++ [batch_at objects j])
                  (deleted_objects st + length (batch_at objects j))
                  (signals st ++ [DProgress ((deleted_objects st + length (batch_at objects j)) * 100 / total)])))
      as (m & Hc' & Hle' & Hm' & Hd' & He' & ps & Hs' & Hps); cbn [calls deleted_objects signals];
      [unfold batch_size in *; lia|rewrite Hc, first_batches_S; reflexivity|right; lia
      |unfold batch_size in *; lia|].
    exists m. split; [exact Hc'|]. split; [exact Hle'|]. split; [exact Hm'|].
    split; [exact Hd'|]. split; [exact He'|].
    exists ([DProgress ((deleted_objects st + length (batch_at objects j)) * 100 / total)] ++ ps).
    split; [cbn [signals] in Hs'; rewrite Hs', <- !app_assoc; reflexivity|].
    apply progress_only_app; [apply progress_only_one|exact Hps].
Qed.

Lemma first_batches_bounded m :
  (m = 0 \/ (m - 1) * batch_size < length objects) ->
  Forall (fun b => 1 <= length b <= batch_size) (first_batches objects m).
Proof.
  intros Hm. apply List.Forall_forall. intros b Hb.
  unfold first_batches in Hb. apply in_map_iff in Hb as (j & <- & Hj).
  apply in_seq in Hj. rewrite batch_at_length. unfold batch_size in *. lia.
Qed.

Lemma batch_count m :
  length objects <= m * batch_size -> (m = 0 \/ (m - 1) * batch_size < length objects) ->
  m = (length objects + batch_size - 1) / batch_size.
Proof.
  intros H1 H2. unfold batch_size in *.
  apply (Nat.div_unique _ 1000 m (length objects + 999 - 1000 * m)); lia.
Qed.

End Run.

Lemma progress_only_no_success ps : progress_only ps -> ~ In DSuccess ps.
Proof.
  intros Hps Hin. apply List.Forall_forall with (x := DSuccess) in Hps; [|exact Hin].
  destruct Hps as [p Hp]. discriminate.
Qed.
Definition init_del : DelState := mkDel [] 0 [DProgress 0; DProgress 0].

Lemma run_cases env objects :
  listing env = Some objects ->
  calls (delete_directory_run env) = [] \/
  calls (delete_directory_run env) =
    calls (fst (delete_loop env objects (length objects) (S (length objects)) 0 init_del)).
Proof.
  intros Hl. unfold delete_directory_run. rewrite Hl.
  destruct (cancelled_at_start env); [left; reflexivity|].
  destruct objects as [|o os]; [left; reflexivity|].
  destruct (cancelled_after_listing env); [left; reflexivity|].
  right. fold init_del.
  destruct (delete_loop _ _ _ _ _ _) as [st []]; try destruct (cancelled_at_end env); reflexivity.
Qed.

Lemma run_no_cancel env objects :
  no_cancel env -> listing env = Some objects -> objects <> [] ->
  delete_directory_run env =
    let (st, e) := delete_loop env objects (length objects) (S (length objects)) 0 init_del in
    match e with
    | LoopDone => mkDel (calls st) (deleted_objects st)
                    (signals st ++ [DProgress 100; DSuccess; DFinished])
    | _ => st
    end.
Proof.
  intros (H0 & H1 & _ & H3) Hl Hne. unfold delete_directory_run. rewrite H0, Hl.
  destruct objects as [|o os]; [congruence|]. rewrite H1. fold init_del.
  destruct (delete_loop _ _ _ _ _ _) as [st []]; try rewrite H3; reflexivity.
Qed.

(** C6: in every run of [DeleteDirectoryWorker.run] over the listed keys
    [objects], the [delete_objects] calls are the first [m] consecutive
    batches [objects[k*1000 : k*1000+1000]], each of 1 to 1000 keys. With
    no cancellation and every batch succeeding, all
    [ceil (length objects / 1000)] batches are issued and every key is
    counted deleted. With no cancellation, if batch [k] (counted from 0)
    fails after the earlier ones succeed, exactly [k+1] batches are
    issued, the run reports an error and no success, and
    [deleted_objects = 1000 * k]. *)
Theorem delete_directory_batches (env : DeleteEnv) (objects : list string) :
  listing env = Some objects ->
  (exists m, calls (delete_directory_run env) = first_batches objects m /\
     Forall (fun b => 1 <= length b <= batch_size) (calls (delete_directory_run env))) /\
  (no_cancel env -> (forall k, batch_ok env k = true) ->
     calls (delete_directory_run env) =
       first_batches objects ((length objects + batch_size - 1) / batch_size) /\
     deleted_objects (delete_directory_run env) = length objects /\
     In DSuccess (signals (delete_directory_run env))) /\
  (forall k, no_cancel env -> k * batch_size < length objects ->
     (forall i, i < k -> batch_ok env i = true) -> batch_ok env k = false ->
     calls (delete_directory_run env) = first_batches objects (S k) /\
     deleted_objects (delete_directory_run env) = k * batch_size /\
     reports_failure (delete_directory_run env)).
Proof.
  intros Hl. split; [|split].
  - destruct (run_cases env objects Hl) as [Hc|Hc]; rewrite Hc.
    + exists 0. split; [reflexivity|constructor].
    + destruct (delete_loop_calls env objects (length objects) (S (length objects)) 0 init_del
                  eq_refl (or_introl eq_refl)) as (m & Hm & Hb).
      exists m. rewrite Hm. split; [reflexivity|]. apply first_batches_bounded; exact Hb.
  - intros Hnc Hok.
    destruct objects as [|o os].
    + destruct Hnc as (H0 & _). unfold delete_directory_run. rewrite H0, Hl.
      split; [reflexivity|]. split; [reflexivity|]. simpl; auto.
    + rewrite (run_no_cancel env (o :: os) Hnc Hl ltac:(discriminate)).
      destruct Hnc as (_ & _ & Hb & _).
      destruct (delete_loop_all_ok env (o :: os) (length (o :: os)) (S (length (o :: os)))
                  Hb Hok 0 init_del ltac:(lia) eq_refl (or_introl eq_refl) ltac:(reflexivity))
        as (m & Hc & Hle & Hm & Hd & He & ps & Hs & _).
      destruct (delete_loop _ _ _ _ _ _) as [st e]. cbn [fst snd] in *. subst e.
      cbn [calls deleted_objects signals].
      rewrite <- (batch_count (o :: os) m Hle Hm).
      split; [exact Hc|]. split; [exact Hd|].
      apply in_or_app. right. simpl; auto.
  - intros k Hnc Hk Hok Hfail.
    destruct objects as [|o os]; [simpl in Hk; lia|].
    rewrite (run_no_cancel env (o :: os) Hnc Hl ltac:(discriminate)).
    destruct Hnc as (_ & _ & Hb & _).
    destruct (delete_loop_fail env (o :: os) (length (o :: os)) k (S (length (o :: os)))
                Hb Hok Hfail Hk 0 init_del ltac:(lia) ltac:(unfold batch_size in *; lia)
                eq_refl eq_refl)
      as (Hc & Hd & He & ps & Hs & Hps).
    destruct (delete_loop _ _ _ _ _ _) as [st e]. cbn [fst snd] in *. subst e.
    split; [exact Hc|]. split; [exact Hd|].
    unfold reports_failure. rewrite Hs. split.
    + apply in_or_app. right. apply in_or_app. right. left. reflexivity.
    + intros Hin. apply in_app_or in Hin as [Hin|Hin]; [simpl in Hin; intuition discriminate|].
      apply in_app_or in Hin as [Hin|Hin]; [exact (progress_only_no_success ps Hps Hin)|].
      simpl in Hin. intuition discriminate.
Qed.

Lemma delete_directory_batches_witness :
  length (calls (delete_directory_run (env_2500 (fun _ => true)))) = 3 /\
  deleted_objects (delete_directory_run (env_2500 (fun _ => true))) = 2500 /\
  length (calls (delete_directory_run (env_2500 (fun k => negb (k =? 1))))) = 2 /\
  deleted_objects (delete_directory_run (env_2500 (fun k => negb (k =? 1)))) = 1000 /\
  reports_failure (delete_directory_run (env_2500 (fun k => negb (k =? 1)))).
Proof.
  destruct (delete_directory_batches (env_2500 (fun _ => true)) keys_2500 eq_refl)
    as (_ & Hall & _).
  destruct (Hall (conj eq_refl (conj eq_refl (conj (fun _ => eq_refl) eq_refl)))
               (fun _ => eq_refl)) as (Hc & Hd & _).
  destruct (delete_directory_batches (env_2500 (fun k => negb (k =? 1))) keys_2500 eq_refl)
    as (_ & _ & Hfail).
  destruct (Hfail 1 (conj eq_refl (conj eq_refl (conj (fun _ => eq_refl) eq_refl)))
               ltac:(apply Nat.ltb_lt; vm_compute; reflexivity)
               ltac:(intros i Hi; assert (i = 0) as -> by lia; reflexivity)
               eq_refl) as (Hc' & Hd' & Hr').
  rewrite Hc, Hd, Hc', Hd'.
  split; [vm_compute; reflexivity|]. split; [vm_compute; reflexivity|].
  split; [vm_compute; reflexivity|]. split; [reflexivity|exact Hr'].
Defined.

End DeleteProofs.

Module OperationsProofs.
Import Operations.

(** C7 counterexample: [complete_operation(op_id, success=False)] on a
    completed operation turns it into a failed one. *)
Example complete_overwrites_completed :
  state_of "op1" completed_app = Some Completed /\
  state_of "op1" (step (EvComplete "op1" false) completed_app) = Some Failed.
Proof. split; reflexivity. Qed.

Lemma cancel_operation_operations id w :
  operations (snd (cancel_operation id w)) = operations w.
Proof.
  unfold cancel_operation. destruct (operations w !! id) as [op|]; [|reflexivity].
  destruct (op_state op); reflexivity.
Qed.

Definition completed_or_gone (id : string) (a : App) : Prop :=
  state_of id a = Some Completed \/ state_of id a = None.

Lemma step_completed_or_gone id e a :
  app_event id e = true -> completed_or_gone id a -> completed_or_gone id (step e a).
Proof.
  unfold completed_or_gone, state_of.
  destruct e as [i ty|i p|i s|i|i]; cbn [app_event step window]; intros He Ha.
  - apply negb_true_iff, bool_decide_eq_false in He.
    unfold add_operation. cbn [operations]. rewrite lookup_insert_ne by congruence. exact Ha.
  - unfold update_progress. destruct (operations (window a) !! i) as [o|] eqn:Eo; [|exact Ha].
    cbn [operations]. destruct (decide (i = id)) as [->|Hne].
    + rewrite lookup_insert_eq. rewrite Eo in Ha. exact Ha.
    + rewrite lookup_insert_ne by exact Hne. exact Ha.
  - subst s. unfold complete_operation. destruct (operations (window a) !! i) as [o|]; [|exact Ha].
    cbn [operations]. destruct (decide (i = id)) as [->|Hne].
    + rewrite lookup_insert_eq. left. reflexivity.
    + rewrite lookup_insert_ne by exact Hne. exact Ha.
  - pose proof (cancel_operation_operations i (window a)) as Hops.
    destruct (cancel_operation i (window a)) as [em w'].
    cbn [window]. cbn [snd] in Hops. rewrite Hops. exact Ha.
  - unfold remove_operation. cbn [operations]. destruct (decide (i = id)) as [->|Hne].
    + rewrite lookup_delete_eq. right. reflexivity.
    + rewrite lookup_delete_ne by exact Hne. exact Ha.
Qed.

Lemma run_completed_or_gone id evs :
  forall a, forallb (app_event id) evs = true ->
  completed_or_gone id a -> completed_or_gone id (run evs a).
Proof.
  unfold run. induction evs as [|e evs IH]; intros a Hevs Ha; [exact Ha|].
  cbn [forallb] in Hevs. apply andb_true_iff in Hevs as [He Hevs].
  cbn [fold_left]. apply IH; [exact Hevs|]. apply step_completed_or_gone; assumption.
Qed.

(** C7 (amended): for an operation in a terminal state ([Completed] or
    [Failed]), [cancel_operation] is a no-op: nothing is emitted, so
    [cancel_worker] is not called, and the application state is
    unchanged; [cancel_worker] itself returns [False] for an id with no
    active worker. [complete_operation] has no terminal guard: it sets
    the state from [success] whatever it was. Under the events the
    application issues ([success=True] at every call site, fresh ids for
    new operations), a [Completed] operation stays [Completed] until it
    is removed. *)
Theorem terminal_operation_events (id : string) (a : App) (op : Operation) :
  operations (window a) !! id = Some op -> op_state op <> Active ->
  step (EvCancel id) a = a /\
  (id ∉ active_workers (manager a) -> fst (cancel_worker id (manager a)) = false) /\
  (forall success, state_of id (step (EvComplete id success) a) =
                   Some (if success then Completed else Failed)) /\
  (op_state op = Completed -> forall evs, forallb (app_event id) evs = true ->
     state_of id (run evs a) = Some Completed \/ state_of id (run evs a) = None).
Proof.
  intros Hop Hterm. split; [|split; [|split]].
  - unfold step, cancel_operation. rewrite Hop.
    destruct (op_state op); [congruence| |]; destruct a; reflexivity.
  - intros Hw. unfold cancel_worker. destruct (decide _); [contradiction|reflexivity].
  - intros success. unfold state_of, step, complete_operation. rewrite Hop.
    cbn [window operations]. rewrite lookup_insert_eq. reflexivity.
  - intros Hc evs Hevs. apply (run_completed_or_gone id evs a Hevs).
    left. unfold state_of. rewrite Hop. cbn. rewrite Hc. reflexivity.
Qed.

Lemma terminal_operation_events_witness :
  step (EvCancel "op1") completed_app = completed_app /\
  state_of "op1" (run [EvProgress "op1" 40; EvCancel "op1"; EvComplete "op1" true;
                       EvAdd "op2" "Download"] completed_app) = Some Completed.
Proof.
  destruct (terminal_operation_events "op1" completed_app (mkOp "Upload" 100 Completed true)
              eq_refl ltac:(discriminate)) as (Hc & _ & _ & Hrun).
  split; [exact Hc|].
  destruct (Hrun eq_refl [EvProgress "op1" 40; EvCancel "op1"; EvComplete "op1" true;
                          EvAdd "op2" "Download"] eq_refl) as [H|H];
    [exact H|vm_compute in H; discriminate].
Defined.

End OperationsProofs.

Module ListWorkerProofs.
Import ListWorker.

(** The binding check accepts the other calls the code makes to
    [list_objects]: [DeleteDirectoryWorker]'s [delimiter=''] and the
    three-argument form. *)
Example list_objects_calls_bind :
  call_binds list_objects_params list_objects_required 2 ["delimiter"%string] = true /\
  call_binds list_objects_params list_objects_required 3 [] = true /\
  call_binds list_objects_params list_objects_required 1 ["prefix"%string; "delimiter"%string] = true.
Proof. split; [|split]; reflexivity. Qed.

Lemma recursive_keyword_rejected :
  call_binds list_objects_params list_objects_required 2 ["recursive"%string] = false.
Proof. reflexivity. Qed.

(** C10 counterexample: a worker cancelled before [run] starts emits
    nothing at all, in particular no error. *)
Example list_worker_cancelled_silent :
  list_objects_worker_run (mkListWorkerEnv true "photos" "" false true false) = [].
Proof. reflexivity. Qed.

(** C10 (amended): for every bucket, prefix and [recursive] flag,
    [ListObjectsWorker.run] never emits a data result or a success; if it
    is not cancelled at the start it emits progress 0 and then the error
    signal (the [TypeError] of the [recursive] keyword), whatever the
    listing would return; if it is cancelled at the start it emits
    nothing. *)
Theorem list_worker_never_lists (env : ListWorkerEnv) :
  ~ In LSData (list_objects_worker_run env) /\
  ~ In LSSuccess (list_objects_worker_run env) /\
  (lw_cancelled_at_start env = false -> list_objects_worker_run env = [LSProgress 0; LSError]) /\
  (lw_cancelled_at_start env = true -> list_objects_worker_run env = []).
Proof.
  unfold list_objects_worker_run. rewrite recursive_keyword_rejected.
  destruct (lw_cancelled_at_start env); cbn.
  - split; [tauto|]. split; [tauto|]. split; [discriminate|reflexivity].
  - split; [intuition discriminate|]. split; [intuition discriminate|].
    split; [reflexivity|discriminate].
Qed.

End ListWorkerProofs.

Module RetryMoreProofs.
Import Retry RetryProofs.

(** The error a failed attempt records when the loop retries it: a
    [ClientError] with a retryable code, or a [ConnectionError] /
    [TimeoutError]; [None] for an attempt that is not retried. *)
Definition transient_error {A} (op : string) (r : CallResult A) : option AWSError :=
  match r with
  | Raised (ClientError c m) => if is_retryable c then Some (mkAWSError m c op) else None
  | Raised (ConnError m) => Some (mkAWSError m None op)
  | _ => None
  end.

(** How [_execute_with_retry] ends on an attempt it does not retry: the
    call's value, or the [AWSError] raised at once. *)
Definition final_outcome {A} (op : string) (r : CallResult A) : option (Outcome A) :=
  match r with
  | Returned v => Some (RetOk v)
  | Raised (ClientError c m) => if is_retryable c then None else Some (RetErr (mkAWSError m c op))
  | Raised (ConnError _) => None
  | Raised (OtherExc m) => Some (RetErr (mkAWSError m None op))
  end.

Section Skip.
Context {A : Type}.
Variable p : RetryPolicy.
Variable op : string.
Variable func : nat -> CallResult A.

Lemma run_loop_retry_step fuel st e :
  retries st <= max_retries p ->
  transient_error op (func (Z.to_nat (retries st))) = Some e ->
  run_loop p op func (S fuel) st = run_loop p op func fuel (retry_step p st e).
Proof.
  intros Hle Ee. cbn [run_loop].
  replace (retries st <=? max_retries p) with true by (symmetry; apply Z.leb_le; lia).
  unfold transient_error in Ee.
  destruct (func (Z.to_nat (retries st))) as [v|[c m|m|m]]; try discriminate.
  - destruct (is_retryable c); [|discriminate]. injection Ee as <-. reflexivity.
  - injection Ee as <-. reflexivity.
Qed.

Lemma run_loop_final fuel st o :
  retries st <= max_retries p ->
  final_outcome op (func (Z.to_nat (retries st))) = Some o ->
  run_loop p op func (S fuel) st = (o, stop_with st).
Proof.
  intros Hle Eo. cbn [run_loop].
  replace (retries st <=? max_retries p) with true by (symmetry; apply Z.leb_le; lia).
  unfold final_outcome in Eo.
  destruct (func (Z.to_nat (retries st))) as [v|[c m|m|m]]; try discriminate.
  - injection Eo as <-. reflexivity.
  - destruct (is_retryable c); [discriminate|]. injection Eo as <-. reflexivity.
  - injection Eo as <-. reflexivity.
Qed.

(** [n] transient failures in a row from attempt [j] are [n] rounds of
    the loop, each adding a call and its backoff sleep. *)
Lemma run_loop_transient n :
  forall j fuel st,
  retries st = Z.of_nat j -> Z.of_nat (j + n) <= max_retries p + 1 ->
  (n <= fuel)%nat -> trace st = rounds p j ->
  (forall i, (j <= i < j + n)%nat -> transient_error op (func i) <> None) ->
  exists st',
    run_loop p op func fuel st = run_loop p op func (fuel - n) st' /\
    retries st' = Z.of_nat (j + n) /\ trace st' = rounds p (j + n) /\
    (n <> 0%nat -> last_exception st' = transient_error op (func (j + n - 1)%nat)).
Proof.
  induction n as [|n IH]; intros j fuel st Hr Hn Hf Ht Htr.
  - exists st. rewrite Nat.sub_0_r, Nat.add_0_r.
    repeat split; try assumption. intros H. contradiction.
  - destruct fuel as [|fuel]; [lia|].
    assert (Htr0 := Htr j ltac:(lia)).
    destruct (transient_error op (func j)) as [e|] eqn:Ee; [|contradiction].
    rewrite (run_loop_retry_step fuel st e) by (try rewrite Hr, Nat2Z.id; lia || exact Ee).
    assert (Ht1 : trace (retry_step p st e) = rounds p (S j)).
    { rewrite (retry_step_rounds p e st) by (rewrite ?Hr, ?Nat2Z.id; lia || exact Ht).
      cbn [retries retry_step]. rewrite Hr. f_equal. lia. }
    destruct n as [|n].
    + exists (retry_step p st e). replace (S fuel - 1)%nat with fuel by lia. cbn [retries last_exception retry_step].
      repeat split; [lia|rewrite Ht1; f_equal; lia|].
      intros _. rewrite <- Ee. f_equal. f_equal. lia.
    + destruct (IH (S j) fuel (retry_step p st e)) as (st' & Hrun & Hr' & Ht' & Hl);
        cbn [retries retry_step]; try lia; [exact Ht1| |].
      * intros i Hi. apply Htr. lia.
      * exists st'. split; [rewrite Hrun; f_equal; lia|].
        split; [rewrite Hr'; f_equal; lia|]. split; [rewrite Ht'; f_equal; lia|].
        intros _. rewrite Hl by discriminate. f_equal. f_equal. lia.
Qed.

End Skip.
(** Extra X1 ([_execute_with_retry]): when the first [k] attempts fail
    with retryable errors and attempt [k] (with [k <= max_retries]) is
    not retried, the outcome is that attempt's: its return value, or the
    [AWSError] built from its error, raised at once. The caller sees [k]
    call/backoff rounds and one last call. *)
Theorem execute_outcome_after_transient {A} p op (func : nat -> CallResult A) k o :
  Z.of_nat k <= max_retries p ->
  (forall i, (i < k)%nat -> transient_error op (func i) <> None) ->
  final_outcome op (func k) = Some o ->
  fst (execute p op func) = o /\
  trace (snd (execute p op func)) = rounds p k ++ [Call].
Proof.
  intros Hk Htr Ho. unfold execute.
  destruct (run_loop_transient p op func k 0 (S (Z.to_nat (max_retries p + 1)))
              (mkLoop 0 None [])) as (st' & Hrun & Hr & Ht & _);
    cbn [retries trace]; try lia; [reflexivity|intros i Hi; apply Htr; lia|].
  rewrite Hrun. replace (S (Z.to_nat (max_retries p + 1)) - k)%nat
    with (S (Z.to_nat (max_retries p + 1) - k)) by lia.
  rewrite (run_loop_final p op func _ st' o) by (rewrite ?Hr, ?Nat2Z.id; lia || exact Ho).
  split; [reflexivity|]. cbn [snd stop_with trace]. rewrite Ht. reflexivity.
Qed.

Definition throttle_then_7 (i : nat) : CallResult Z :=
  if (i <? 2)%nat then Raised (ClientError (Some "SlowDown"%string) "Please reduce your request rate")
  else Returned 7.

Lemma execute_outcome_after_transient_witness :
  fst (execute (mkPolicy 3 1 true) "list_objects" throttle_then_7) = RetOk 7 /\
  trace (snd (execute (mkPolicy 3 1 true) "list_objects" throttle_then_7)) =
    rounds (mkPolicy 3 1 true) 2 ++ [Call].
Proof.
  apply (execute_outcome_after_transient (mkPolicy 3 1 true) "list_objects" throttle_then_7 2 (RetOk 7)).
  - simpl. lia.
  - intros i Hi. destruct i as [|[|i]]; [vm_compute; discriminate..|lia].
  - vm_compute. reflexivity.
Defined.

(** Extra X2 ([_execute_with_retry]): when every attempt fails with a
    retryable error ([max_retries >= 0]), the loop makes [max_retries + 1]
    calls, each followed by its backoff sleep, and then raises the error
    recorded for the last attempt. *)
Theorem execute_exhausted_raises_last {A} p op (func : nat -> CallResult A) e :
  0 <= max_retries p ->
  (forall i, Z.of_nat i <= max_retries p -> transient_error op (func i) <> None) ->
  transient_error op (func (Z.to_nat (max_retries p))) = Some e ->
  fst (execute p op func) = RetErr e /\
  trace (snd (execute p op func)) = rounds p (Z.to_nat (max_retries p + 1)).
Proof.
  intros H0 Htr He. unfold execute.
  destruct (run_loop_transient p op func (Z.to_nat (max_retries p + 1)) 0
              (S (Z.to_nat (max_retries p + 1))) (mkLoop 0 None []))
    as (st' & Hrun & Hr & Ht & Hl);
    cbn [retries trace]; try lia; [reflexivity|intros i Hi; apply Htr; lia|].
  rewrite Hrun. replace (S (Z.to_nat (max_retries p + 1)) - Z.to_nat (max_retries p + 1))%nat
    with 1%nat by lia.
  replace (0 + Z.to_nat (max_retries p + 1) - 1)%nat with (Z.to_nat (max_retries p)) in Hl by lia.
  cbn [run_loop]. replace (retries st' <=? max_retries p) with false
    by (symmetry; apply Z.leb_gt; lia).
  rewrite Hl by lia. rewrite He. split; [reflexivity|exact Ht].
Qed.

Definition always_timeout (i : nat) : CallResult Z := Raised (ConnError "Read timed out").

Lemma execute_exhausted_raises_last_witness :
  fst (execute (mkPolicy 2 1 true) "get_object" always_timeout) =
    RetErr (mkAWSError "Read timed out" None "get_object") /\
  trace (snd (execute (mkPolicy 2 1 true) "get_object" always_timeout)) =
    rounds (mkPolicy 2 1 true) 3.
Proof.
  apply (execute_exhausted_raises_last (mkPolicy 2 1 true) "get_object" always_timeout).
  - simpl. lia.
  - intros i _. vm_compute. discriminate.
  - vm_compute. reflexivity.
Defined.

(** Extra X3 ([_execute_with_retry]): with a negative [max_retries] the
    [while] loop is never entered: [func] is never called, nothing is
    raised, and the method returns [None]. *)
Theorem execute_negative_max_retries {A} p op (func : nat -> CallResult A) :
  max_retries p < 0 ->
  execute p op func = (RetNone, mkLoop 0 None []).
Proof.
  intros Hneg. unfold execute. cbn [run_loop retries last_exception].
  replace (0 <=? max_retries p) with false by (symmetry; apply Z.leb_gt; lia).
  reflexivity.
Qed.

Lemma execute_negative_max_retries_witness :
  max_retries (mkPolicy (-1) 1 true) < 0 /\
  execute (mkPolicy (-1) 1 true) "list_buckets" throttle_then_7 = (RetNone, mkLoop 0 None []).
Proof.
  split; [simpl; lia|].
  apply (execute_negative_max_retries (mkPolicy (-1) 1 true) "list_buckets" throttle_then_7).
  simpl. lia.
Defined.

End RetryMoreProofs.

Module ListingMoreProofs.
Import Listing ListingProofs.

(** The request [list_objects] sends after a page, from the request
    that fetched it and the token it returned: the mutated [params]
    with the token when the token is truthy, else [params] unchanged. *)
Definition next_request (r : ListRequest) (t : option string) : ListRequest :=
  if truthy t then with_token r t else r.

Section Chain.
Variable client : ListingClient.
Variable call : nat -> ListRequest -> option Page.
Variables (bucket prefix delimiter : string).

Definition first_ok (f : list (ListRequest * Page)) : Prop :=
  forall x, nth_error f 0 = Some x -> fst x = initial_params client bucket prefix delimiter.

Definition chain_ok (f : list (ListRequest * Page)) : Prop :=
  forall k r pg r' pg', nth_error f k = Some (r, pg) -> nth_error f (S k) = Some (r', pg') ->
    r' = next_request r (NextContinuationToken pg).

Definition chain_inv (st : LoopState) : Prop :=
  first_ok (fetched st) /\ chain_ok (fetched st) /\
  (fetched st = [] -> params st = initial_params client bucket prefix delimiter /\
                      continuation_token st = None) /\
  (fetched st <> [] -> exists pg,
     nth_error (fetched st) (length (fetched st) - 1) = Some (params st, pg) /\
     continuation_token st = NextContinuationToken pg).

Lemma chain_snoc st resp :
  chain_inv st ->
  let ps := if truthy (continuation_token st)
            then mkRequest (req_Bucket (params st)) (req_MaxKeys (params st))
                   (req_Delimiter (params st)) (req_Prefix (params st))
                   (continuation_token st)
            else params st in
  first_ok (fetched st ++ [(ps, resp)]) /\ chain_ok (fetched st ++ [(ps, resp)]).
Proof.
  intros (Hfirst & Hchain & Hnil & Hcons) ps.
  destruct (fetched st) as [|y f] eqn:Ef.
  - destruct (Hnil eq_refl) as [Hp Hc]. split.
    + intros x Hx. simpl in Hx. injection Hx as <-. unfold ps. rewrite Hc, Hp. reflexivity.
    + intros [|k] r pg r' pg' Hk Hk'; simpl in Hk'; [discriminate|destruct k; discriminate].
  - destruct (Hcons ltac:(discriminate)) as (pg & Hl & Hc). split.
    + intros x Hx. apply Hfirst. exact Hx.
    + intros k r pg0 r' pg' Hk Hk'.
      rewrite nth_error_snoc in Hk, Hk'.
      destruct (Nat.ltb_spec (S k) (length (y :: f))).
      * destruct (Nat.ltb_spec k (length (y :: f))); [|lia].
        eapply Hchain; eassumption.
      * destruct (Nat.eqb_spec (S k) (length (y :: f))); [|discriminate].
        injection Hk' as <- <-.
        destruct (Nat.ltb_spec k (length (y :: f))); [|lia].
        replace (length (y :: f) - 1)%nat with k in Hl by lia.
        rewrite Hl in Hk. injection Hk as <- <-.
        unfold ps, next_request. rewrite Hc. reflexivity.
Qed.

Lemma list_loop_chain fuel :
  forall st st', chain_inv st -> list_loop client call prefix fuel st = Some st' ->
  first_ok (fetched st') /\ chain_ok (fetched st').
Proof.
  induction fuel as [|fuel IH]; intros st st' Hinv Hrun; [discriminate|].
  cbn [list_loop] in Hrun.
  set (ps := if truthy (continuation_token st) then _ else _) in Hrun.
  destruct (call (length (fetched st)) ps) as [resp|] eqn:Ec; [|discriminate].
  destruct (chain_snoc st resp Hinv) as [Hf Hc]. fold ps in Hf, Hc.
  destruct (_ || _).
  - injection Hrun as <-. split; assumption.
  - eapply IH; [|exact Hrun]. unfold chain_inv; cbn [fetched params continuation_token].
    split; [exact Hf|]. split; [exact Hc|]. split.
    + intros Hnil. destruct (fetched st); discriminate.
    + intros _. exists resp. rewrite length_app. simpl.
      rewrite nth_error_snoc. replace (length (fetched st) + 1 - 1)%nat with (length (fetched st))
        by lia. rewrite Nat.ltb_irrefl, Nat.eqb_refl. split; reflexivity.
Qed.

End Chain.

(** Extra X4 ([list_objects]): the first page is requested with the
    initial [params], and each next request is the previous one with the
    previous page's [NextContinuationToken] when that token is truthy,
    and otherwise the previous request unchanged, since [params] is
    updated in place. No contract on the backend is assumed. *)
Theorem list_objects_request_chain (client : ListingClient)
    (call : nat -> ListRequest -> option Page)
    (bucket prefix delimiter : string) (res : ListResult)
    (f : list (ListRequest * Page)) :
  list_objects client call bucket prefix delimiter = Some (res, f) ->
  (forall x, nth_error f 0 = Some x -> fst x = initial_params client bucket prefix delimiter) /\
  (forall k r pg r' pg', nth_error f k = Some (r, pg) -> nth_error f (S k) = Some (r', pg') ->
     r' = next_request r (NextContinuationToken pg)).
Proof.
  unfold list_objects. intros H.
  destruct (list_loop client call prefix _ _) as [st|] eqn:Hrun; [|discriminate].
  injection H as _ <-.
  eapply (list_loop_chain client call bucket prefix delimiter); [|exact Hrun].
  repeat split; cbn [fetched params continuation_token].
  - intros x Hx. destruct x; discriminate.
  - intros [|k] ? ? ? ? Hk; discriminate.
  - intros Hne. contradiction.
Qed.

(** A backend that reports every page as truncated but sends no token. *)
Definition stuck_pages (k : nat) (r : ListRequest) : option Page :=
  Some (mkPage [mkS3Object "a.txt" 1] [] true None).

Lemma list_objects_request_chain_witness :
  exists res f,
    list_objects default_listing_client stuck_pages "bucket" "" "/" = Some (res, f) /\
    length f = 20%nat /\
    forall k r pg r' pg', nth_error f k = Some (r, pg) -> nth_error f (S k) = Some (r', pg') ->
      r' = r.
Proof.
  eexists _, _. split; [vm_compute; reflexivity|]. split; [vm_compute; reflexivity|].
  intros k r pg r' pg' Hk Hk'.
  destruct (list_objects_request_chain default_listing_client stuck_pages "bucket" "" "/"
              _ _ ltac:(vm_compute; reflexivity)) as [_ Hc].
  rewrite (Hc k r pg r' pg' Hk Hk').
  assert (Hpg : NextContinuationToken pg = None).
  { apply nth_error_In in Hk. vm_compute in Hk.
    repeat (destruct Hk as [Hk|Hk]; [injection Hk as _ <-; reflexivity|]). contradiction. }
  rewrite Hpg. reflexivity.
Defined.

End ListingMoreProofs.

Module PathsProofs.
Import PyStr Paths.
Open Scope string_scope.
#[local] Arguments String.append : simpl nomatch.

Lemma str_app_assoc (s1 s2 s3 : string) : (s1 ++ s2) ++ s3 = s1 ++ (s2 ++ s3).
Proof. induction s1 as [|a s1 IH]; simpl; congruence. Qed.

Lemma str_app_nil_r (s : string) : s ++ "" = s.
Proof. induction s as [|a s IH]; simpl; congruence. Qed.

Lemma contains_app c s1 s2 :
  contains_char c (s1 ++ s2) = contains_char c s1 || contains_char c s2.
Proof. induction s1 as [|a s1 IH]; simpl; [reflexivity|rewrite IH, orb_assoc; reflexivity]. Qed.

Lemma rstrip_no_sep c s : contains_char c s = false -> rstrip_char c s = s.
Proof.
  induction s as [|a s IH]; simpl; [reflexivity|].
  intros H. apply orb_false_iff in H as [Ha Hs]. rewrite (IH Hs), Ha. reflexivity.
Qed.

Lemma rstrip_snoc c s : rstrip_char c (s ++ String c "") = rstrip_char c s.
Proof.
  induction s as [|a s IH]; simpl.
  - rewrite Ascii.eqb_refl. reflexivity.
  - rewrite IH. reflexivity.
Qed.

Lemma rstrip_app c s1 s2 :
  rstrip_char c s2 <> "" -> rstrip_char c (s1 ++ s2) = s1 ++ rstrip_char c s2.
Proof.
  intros H. induction s1 as [|a s1 IH]; simpl; [reflexivity|].
  rewrite IH. destruct s1; simpl;
    [apply String.eqb_neq in H; rewrite H, andb_false_r; reflexivity|].
  rewrite andb_false_r. reflexivity.
Qed.

Lemma rstrip_idem c s : rstrip_char c (rstrip_char c s) = rstrip_char c s.
Proof.
  induction s as [|a s IH]; simpl; [reflexivity|].
  destruct (Ascii.eqb a c && String.eqb (rstrip_char c s) "") eqn:E; [reflexivity|].
  simpl. rewrite IH, E. reflexivity.
Qed.

Lemma lstrip_idem c s : lstrip_char c (lstrip_char c s) = lstrip_char c s.
Proof.
  induction s as [|a s IH]; simpl; [reflexivity|].
  destruct (Ascii.eqb a c) eqn:E; [exact IH|simpl; rewrite E; reflexivity].
Qed.

Lemma lstrip_length c s : (String.length (lstrip_char c s) <= String.length s)%nat.
Proof. induction s as [|b s IH]; simpl; [lia|destruct (Ascii.eqb b c); simpl; lia]. Qed.

Lemma lstrip_rstrip c u :
  lstrip_char c u = u -> lstrip_char c (rstrip_char c u) = rstrip_char c u.
Proof.
  destruct u as [|a u]; simpl; [reflexivity|].
  destruct (Ascii.eqb a c) eqn:E.
  - intros H. exfalso. pose proof (lstrip_length c u) as Hl.
    rewrite H in Hl. simpl in Hl. lia.
  - intros _. simpl. rewrite E. reflexivity.
Qed.


Lemma rstrip_length c s : (String.length (rstrip_char c s) <= String.length s)%nat.
Proof.
  induction s as [|b s IH]; simpl; [lia|].
  destruct (_ && _); simpl; lia.
Qed.

Lemma split_no_sep c s : contains_char c s = false -> split_char c s = [s].
Proof.
  induction s as [|a s IH]; simpl; [reflexivity|].
  intros H. apply orb_false_iff in H as [Ha Hs]. rewrite Ha, (IH Hs). reflexivity.
Qed.

Lemma split_fields_no_sep c s : List.Forall (fun x => contains_char c x = false) (split_char c s).
Proof.
  induction s as [|a s IH]; simpl.
  - constructor; [reflexivity|constructor].
  - destruct (Ascii.eqb a c) eqn:E; [constructor; [reflexivity|exact IH]|].
    destruct (split_char c s) as [|h t]; constructor; simpl; rewrite ?E; try constructor.
    + inversion IH; subst. simpl. assumption.
    + inversion IH; assumption.
Qed.

Lemma split_sep c s1 s2 :
  exists h l, split_char c (s1 ++ String c s2) = h :: (l ++ split_char c s2)%list.
Proof.
  induction s1 as [|a s1 IH]; simpl.
  - rewrite Ascii.eqb_refl. exists "", []. reflexivity.
  - destruct IH as (h & l & H). rewrite H.
    destruct (Ascii.eqb a c); [exists "", (h :: l); reflexivity|].
    exists (String a h), l. reflexivity.
Qed.

Lemma split_nonnil c s : split_char c s <> [].
Proof.
  destruct s as [|a s]; simpl; [discriminate|].
  destruct (Ascii.eqb a c); [discriminate|destruct (split_char c s); discriminate].
Qed.

Lemma last_app_nonnil {T} (l m : list T) d : m <> [] -> List.last (l ++ m)%list d = List.last m d.
Proof.
  intros Hm. induction l as [|a l IH]; simpl; [reflexivity|].
  rewrite IH. destruct (l ++ m)%list eqn:E; [apply app_eq_nil in E; tauto|reflexivity].
Qed.

Lemma last_Forall {T} (P : T -> Prop) l d : P d -> List.Forall P l -> P (List.last l d).
Proof.
  intros Hd Hl. induction Hl as [|x l Hx Hl IH]; simpl; [exact Hd|].
  destruct l; [exact Hx|exact IH].
Qed.

Lemma substring_app_length (s t : string) k :
  substring (String.length s) k (s ++ t) = substring 0 k t.
Proof. induction s as [|a s IH]; simpl; [reflexivity|exact IH]. Qed.

Lemma str_length_app (s t : string) :
  String.length (s ++ t) = (String.length s + String.length t)%nat.
Proof. induction s as [|a s IH]; simpl; [reflexivity|rewrite IH; reflexivity]. Qed.

Lemma ends_with_slash s : Listing.ends_with "/" (s ++ "/") = true.
Proof.
  unfold Listing.ends_with. rewrite str_length_app. simpl.
  replace (String.length s + 1 - 1)%nat with (String.length s) by lia.
  rewrite substring_app_length, Nat.add_1_r. reflexivity.
Qed.

(** Extra X5 ([list_objects], prefix entries): the display name of a
    common prefix never contains [/]. *)
Theorem prefix_name_no_slash (prefix_value : string) :
  contains_char slash (prefix_name prefix_value) = false.
Proof.
  unfold prefix_name. destruct (contains_char slash prefix_value) eqn:E.
  - unfold py_last. apply last_Forall; [reflexivity|apply split_fields_no_sep].
  - rewrite rstrip_no_sep by exact E. exact E.
Qed.

(** Extra X6 ([list_objects], prefix entries): the display name of the
    common prefix [parent ++ n ++ "/"], for a non-empty segment [n]
    without [/] and a [parent] that is empty or ends in [/], is [n]. *)
Theorem prefix_name_last_segment (parent n : string) :
  n <> "" -> contains_char slash n = false ->
  (parent = "" \/ exists q, parent = q ++ "/") ->
  prefix_name (parent ++ n ++ "/") = n.
Proof.
  intros Hn Hs Hp. unfold prefix_name.
  rewrite !contains_app. simpl (contains_char slash "/"). rewrite !orb_true_r.
  rewrite <- str_app_assoc. change "/" with (String slash "").
  rewrite rstrip_snoc, rstrip_app by (rewrite rstrip_no_sep by exact Hs; exact Hn).
  rewrite rstrip_no_sep by exact Hs.
  destruct Hp as [->|[q ->]].
  - simpl. rewrite split_no_sep by exact Hs. reflexivity.
  - rewrite str_app_assoc. change ("/" ++ n) with (String slash n).
    destruct (split_sep slash q n) as (h & l & ->). unfold py_last.
    rewrite split_no_sep by exact Hs. change (h :: (l ++ [n])%list) with ((h :: l) ++ [n])%list.
    rewrite last_app_nonnil by discriminate. reflexivity.
Qed.

Lemma prefix_name_last_segment_witness :
  prefix_name ("photos/" ++ "2024" ++ "/") = "2024".
Proof.
  apply prefix_name_last_segment.
  - discriminate.
  - reflexivity.
  - right. exists "photos". reflexivity.
Defined.

(** Extra X7 ([list_objects], [get_object_metadata]): the reported etag
    is already stripped of double quotes at both ends (stripping it again
    changes nothing), and a quoted etag ["t"], where [t] itself has no
    quote at either end, is reported as [t]. *)
Theorem etag_of_unquoted (e : option string) (t : string) :
  strip_char dquote t = t ->
  strip_char dquote (etag_of e) = etag_of e /\
  etag_of (Some (String dquote (t ++ String dquote ""))) = t.
Proof.
  intros Ht. split.
  - unfold etag_of, strip_char.
    rewrite (lstrip_rstrip dquote (lstrip_char dquote _)) by apply lstrip_idem.
    apply rstrip_idem.
  - unfold etag_of, strip_char. simpl lstrip_char.
    destruct t as [|a t'].
    + reflexivity.
    + destruct (Ascii.eqb a dquote) eqn:Ea.
      * exfalso. unfold strip_char in Ht. simpl in Ht. rewrite Ea in Ht.
        pose proof (rstrip_length dquote (lstrip_char dquote t')).
        pose proof (lstrip_length dquote t'). rewrite Ht in H. simpl in H. lia.
      * cbn [append lstrip_char]. rewrite Ea.
        change (String a (t' ++ String dquote "")) with (String a t' ++ String dquote "").
        rewrite rstrip_snoc. unfold strip_char in Ht. simpl lstrip_char in Ht.
        rewrite Ea in Ht. exact Ht.
Qed.

Lemma etag_of_unquoted_witness :
  strip_char dquote "9b2cf535f27731c974343645a3985328" = "9b2cf535f27731c974343645a3985328" /\
  etag_of (Some (String dquote ("9b2cf535f27731c974343645a3985328" ++ String dquote ""))) =
    "9b2cf535f27731c974343645a3985328".
Proof.
  split; [vm_compute; reflexivity|].
  apply (etag_of_unquoted None "9b2cf535f27731c974343645a3985328"). vm_compute. reflexivity.
Defined.

(** Extra X8 ([DeleteDirectoryWorker], [DownloadDirectoryWorker]): the
    normalized directory prefix ends in [/], normalizing it again changes
    nothing, the empty prefix becomes ["/"], and the listing these workers
    start always sends it as [Prefix]: it never lists unfiltered. *)
Theorem dir_prefix_normal (client : Listing.ListingClient) (bucket prefix : string) :
  Listing.ends_with "/" (dir_prefix prefix) = true /\
  dir_prefix (dir_prefix prefix) = dir_prefix prefix /\
  dir_prefix "" = "/" /\
  Listing.req_Prefix (Listing.initial_params client bucket (dir_prefix prefix) "") =
    Some (dir_prefix prefix).
Proof.
  split; [apply ends_with_slash|]. split.
  - unfold dir_prefix. change "/" with (String slash ""). rewrite rstrip_snoc, rstrip_idem.
    reflexivity.
  - split; [reflexivity|]. unfold Listing.initial_params. simpl.
    destruct (String.eqb (dir_prefix prefix) "") eqn:E; [|reflexivity].
    apply String.eqb_eq in E. unfold dir_prefix in E.
    destruct (rstrip_char slash prefix); discriminate.
Qed.

(** Extra X9 ([UploadDirectoryWorker.run]): for a non-empty prefix the
    directory is uploaded under the normalized prefix [rstrip('/') + '/']
    followed by [dir_name/], so a trailing [/] on the prefix makes no
    difference. *)
Theorem dir_key_normalized (prefix dir_name : string) :
  prefix <> "" ->
  dir_key prefix dir_name = dir_prefix prefix ++ dir_name ++ "/" /\
  dir_key (prefix ++ "/") dir_name = dir_key prefix dir_name.
Proof.
  intros Hp. unfold dir_key, dir_prefix.
  assert (Hne : forall s, s <> "" -> negb (String.eqb s "") = true).
  { intros s Hs. apply String.eqb_neq in Hs. rewrite Hs. reflexivity. }
  rewrite !Hne by (exact Hp || (destruct prefix; discriminate)).
  split; [rewrite str_app_assoc; reflexivity|].
  change "/" with (String slash "") at 1. rewrite rstrip_snoc. reflexivity.
Qed.

Lemma dir_key_normalized_witness :
  dir_key "photos" "trip" = dir_prefix "photos" ++ "trip" ++ "/" /\
  dir_key ("photos" ++ "/") "trip" = dir_key "photos" "trip".
Proof. apply dir_key_normalized. discriminate. Defined.

End PathsProofs.

Module ConfigProofs.
Import Config.
Local Open Scope string_scope.

(** The JSON object a configuration file contributes: none unless it is
    a readable object. *)
Definition file_object (f : ConfigFile) : (gmap string JValue) :=
  match f with JsonObject m => m | _ => ∅ end.

Definition has_defaults (config : (gmap string JValue)) : Prop :=
  List.Forall (fun kv => config !! kv.1 <> None) defaults_list.

Lemma fold_add_default_lookup l :
  forall (c : (gmap string JValue)) k,
  fold_left add_default l c !! k =
  match c !! k with Some v => Some v | None => (list_to_map l : (gmap string JValue)) !! k end.
Proof.
  induction l as [|[k' v'] l IH]; intros c k; cbn [fold_left].
  - destruct (c !! k); reflexivity.
  - rewrite IH. change (list_to_map ((k', v') :: l) : (gmap string JValue)) with (<[k' := v']> (list_to_map l : (gmap string JValue))).
    unfold add_default. cbn [fst snd].
    destruct (decide (c !! k' = None)) as [Hn|Hs].
    + destruct (decide (k = k')) as [->|Hne].
      * rewrite lookup_insert_eq, Hn, lookup_insert_eq. reflexivity.
      * rewrite !lookup_insert_ne by congruence. reflexivity.
    + destruct (decide (k = k')) as [->|Hne].
      * destruct (c !! k'); [reflexivity|contradiction].
      * rewrite lookup_insert_ne by congruence. reflexivity.
Qed.

Lemma fold_add_default_id l (c : (gmap string JValue)) :
  List.Forall (fun kv => c !! kv.1 <> None) l -> fold_left add_default l c = c.
Proof.
  induction 1 as [|[k v] l Hk Hl IH]; simpl; [reflexivity|].
  unfold add_default at 2. simpl. destruct (decide (c !! k = None)); [contradiction|exact IH].
Qed.

Lemma defaults_has : has_defaults defaults.
Proof. unfold has_defaults. repeat constructor; vm_compute; discriminate. Qed.

Lemma has_defaults_insert c k v : has_defaults c -> has_defaults (<[k := v]> c).
Proof.
  unfold has_defaults. intros H. eapply Forall_impl; [exact H|].
  intros [k' v'] Hk. cbn [fst] in *. destruct (decide (k = k')) as [->|Hne].
  - rewrite lookup_insert_eq. discriminate.
  - rewrite lookup_insert_ne by exact Hne. exact Hk.
Qed.

Lemma load_config_has_defaults w f : has_defaults (load_config w f).1.
Proof.
  destruct f as [| |m]; cbn [load_config fst]; try apply defaults_has.
  unfold has_defaults. apply List.Forall_forall. intros [k v] Hin. cbn [fst].
  rewrite fold_add_default_lookup. destruct (m !! k); [discriminate|].
  change (list_to_map defaults_list : (gmap string JValue)) with defaults.
  pose proof defaults_has as Hd. unfold has_defaults in Hd.
  rewrite List.Forall_forall in Hd. exact (Hd (k, v) Hin).
Qed.

(** Extra X10 ([Config._load_config], [Config.get]): after loading,
    [get(key, default)] returns the value the configuration file holds
    for [key]; if the file has none (or is missing or unreadable), it
    returns the built-in default for [key]; and only for a key with
    neither does it return [default]. *)
Theorem get_after_load (writable : bool) (f : ConfigFile) (key : string) (default : JValue) :
  get (load_config writable f).1 key default =
  match file_object f !! key with
  | Some v => v
  | None => match defaults !! key with Some v => v | None => default end
  end.
Proof.
  unfold get. destruct f as [| |m]; cbn [load_config fst file_object].
  1,2: rewrite lookup_empty; reflexivity.
  rewrite fold_add_default_lookup. destruct (m !! key); reflexivity.
Qed.

(** Extra X11 ([Config.set], [Config.save_config], [Config._load_config]):
    when the configuration file can be written, the configuration a
    restarted application loads is exactly the one in memory, whatever
    the file held at start and whatever sequence of [set] calls was made
    in between. *)
Theorem config_survives_restart (f0 : ConfigFile) (sets : list (string * JValue)) :
  let st := run_sets true (load_config true f0) sets in
  (load_config true st.2).1 = st.1.
Proof.
  cbv zeta. unfold run_sets.
  assert (Hinv : forall l (st : (gmap string JValue) * ConfigFile), has_defaults st.1 ->
            (load_config true st.2).1 = st.1 ->
            let st' := fold_left (fun st kv => set true st kv.1 kv.2) l st in
            has_defaults st'.1 /\ (load_config true st'.2).1 = st'.1).
  { induction l as [|[k v] l IH]; intros st Hd Hl; cbn [fold_left]; [split; assumption|].
    apply IH.
    - apply has_defaults_insert. exact Hd.
    - unfold set, save_config. cbn [fst snd load_config].
      apply fold_add_default_id. apply has_defaults_insert. exact Hd. }
  apply Hinv.
  - apply load_config_has_defaults.
  - destruct f0 as [| |m]; cbn [load_config fst snd]; [..|reflexivity].
    + apply fold_add_default_id. apply defaults_has.
    + reflexivity.
Qed.

(** Extra X12 ([Config.save_profile], [Config.get_profiles]): when
    [profiles.json] can be written, saving a profile makes [get_profiles]
    return that profile under its name and every other readable profile
    unchanged; when the file was missing or unreadable, the saved profile
    is the only one left. *)
Theorem save_profile_get (f : ProfilesFile) (name : string) (data : (gmap string JValue)) (other : string) :
  let f' := (save_profile true f name data).2 in
  get_profiles f' !! name = Some data /\
  (other <> name -> get_profiles f' !! other =
     match f with Profiles ps => ps !! other | _ => None end).
Proof.
  cbv zeta. simpl. split; [apply lookup_insert_eq|].
  intros Hne. rewrite lookup_insert_ne by congruence.
  destruct f; reflexivity.
Qed.

Lemma save_profile_get_witness :
  get_profiles (save_profile true BadProfiles "dev" ∅).2 !! "dev" = Some ∅ /\
  get_profiles (save_profile true BadProfiles "dev" ∅).2 !! "prod" = None.
Proof.
  destruct (save_profile_get BadProfiles "dev" ∅ "prod") as [H1 H2].
  split; [exact H1|]. apply H2. discriminate.
Defined.

End ConfigProofs.

Module WorkersProofs.
Import Workers.
Local Open Scope nat_scope.

Definition is_dl_get (k : string) (d : list (string * Worker)) : bool :=
  match dict_get k d with Some w => is_download w | None => false end.

Definition mutate_all (ids : list string) (d : list (string * Worker)) : list (string * Worker) :=
  fold_left (fun d k => dict_mutate k cancel d) ids d.

Lemma existsb_congr {T} (f g : T -> bool) l : (forall x, f x = g x) -> existsb f l = existsb g l.
Proof. intros H. induction l as [|x l IH]; simpl; [reflexivity|rewrite H, IH; reflexivity]. Qed.

Lemma dict_mutate_keys k f d : map fst (dict_mutate k f d) = map fst d.
Proof.
  induction d as [|[k' v] d IH]; simpl; [reflexivity|].
  destruct (String.eqb k' k); simpl; rewrite IH; reflexivity.
Qed.

Lemma dict_get_in k d : In k (map fst d) -> exists w, dict_get k d = Some w.
Proof.
  unfold dict_get. induction d as [|[k' v] d IH]; simpl; [tauto|].
  intros [->|H]; [rewrite String.eqb_refl; eauto|].
  destruct (String.eqb k' k); [eauto|exact (IH H)].
Qed.

Lemma is_dl_get_mutate id k d : is_dl_get id (dict_mutate k cancel d) = is_dl_get id d.
Proof.
  unfold is_dl_get, dict_get. induction d as [|[k' v] d IH]; simpl; [reflexivity|].
  destruct (String.eqb k' k) eqn:E; simpl;
    destruct (String.eqb k' id); try reflexivity; exact IH.
Qed.

Lemma mutate_all_map ids d :
  mutate_all ids d =
  map (fun kv => if existsb (String.eqb (fst kv)) ids then (fst kv, cancel (snd kv)) else kv) d.
Proof.
  unfold mutate_all. revert d. induction ids as [|id ids IH]; intros d; simpl.
  - induction d as [|kv d IHd]; simpl; [reflexivity|rewrite <- IHd; reflexivity].
  - rewrite IH. unfold dict_mutate. rewrite map_map. apply map_ext. intros [k v]. simpl.
    destruct (String.eqb k id) eqn:E; simpl.
    + apply String.eqb_eq in E. subst. rewrite ?String.eqb_refl. simpl.
      destruct (existsb (String.eqb id) ids); reflexivity.
    + reflexivity.
Qed.

Lemma fold_cancel ids :
  forall n m, (forall id, In id ids -> In id (map fst (active_workers m))) ->
  fold_left (fun acc worker_id =>
               let (b, m') := cancel_worker worker_id (snd acc) in
               (if b then S (fst acc) else fst acc, m')) ids (n, m) =
  (n + length ids,
   mkWM (mutate_all ids (active_workers m))
        (download_stop m || existsb (fun id => is_dl_get id (active_workers m)) ids)).
Proof.
  induction ids as [|id ids IH]; intros n m Hin; cbn [fold_left snd fst length existsb].
  - rewrite Nat.add_0_r, orb_false_r. destruct m; reflexivity.
  - destruct (dict_get_in id (active_workers m) (Hin id (or_introl eq_refl))) as [w Hw].
    assert (Hc : cancel_worker id m =
      (true, mkWM (dict_mutate id cancel (active_workers m)) (download_stop m || is_download w)))
      by (unfold cancel_worker; rewrite Hw; reflexivity).
    rewrite Hc.
    rewrite IH.
    + cbn [active_workers download_stop]. f_equal; [lia|]. f_equal.
      rewrite <- orb_assoc. f_equal. f_equal.
      * unfold is_dl_get. rewrite Hw. reflexivity.
      * apply existsb_congr. intros x. apply is_dl_get_mutate.
    + intros x Hx. simpl. rewrite dict_mutate_keys. apply Hin. right. exact Hx.
Qed.

Lemma existsb_is_dl_get d :
  NoDup (map fst d) ->
  existsb (fun id => is_dl_get id d) (map fst d) = existsb (fun kv => is_download (snd kv)) d.
Proof.
  induction d as [|[k v] d IH]; intros Hnd; simpl; [reflexivity|].
  inversion Hnd as [|? ? Hnotin Hnd']; subst.
  unfold is_dl_get at 1, dict_get at 1. simpl. rewrite String.eqb_refl. f_equal.
  rewrite <- IH by exact Hnd'.
  assert (Hgen : forall ids, ~ In k ids ->
            existsb (fun id => is_dl_get id ((k, v) :: d)) ids =
            existsb (fun id => is_dl_get id d) ids).
  { induction ids as [|i ids IHi]; intros Hni; simpl; [reflexivity|].
    rewrite IHi by (intros H; apply Hni; right; exact H). f_equal.
    unfold is_dl_get, dict_get. simpl.
    destruct (String.eqb_spec k i) as [->|_]; [exfalso; apply Hni; left; reflexivity|].
    reflexivity. }
  apply Hgen. intros H. apply Hnotin. apply list_elem_of_In. exact H.
Qed.

(** Extra X13 ([WorkerManager.cancel_all_workers]): it returns the number
    of active workers, calls [cancel()] on every one of them, leaves the
    registry's keys as they are (cancelled workers stay registered until
    their cleanup), and sets the shared client's download-stop event
    exactly when one of them is a download worker (or it was set). *)
Theorem cancel_all_workers_spec (m : WM) :
  NoDup (map fst (active_workers m)) ->
  cancel_all_workers m =
  (get_active_workers m,
   mkWM (map (fun kv => (fst kv, cancel (snd kv))) (active_workers m))
        (download_stop m || existsb (fun kv => is_download (snd kv)) (active_workers m))).
Proof.
  intros Hnd. unfold cancel_all_workers.
  rewrite fold_cancel by (intros id H; exact H).
  rewrite length_map, existsb_is_dl_get by exact Hnd. unfold get_active_workers.
  f_equal. f_equal. rewrite mutate_all_map. apply map_ext_in. intros [k v] Hkv. simpl.
  assert (Hk : existsb (String.eqb k) (map fst (active_workers m)) = true).
  { apply existsb_exists. exists k. split; [apply (in_map fst _ _ Hkv)|apply String.eqb_refl]. }
  rewrite Hk. reflexivity.
Qed.

Definition two_workers : WM :=
  mkWM [("op-1"%string, mkWorker WDownload false); ("op-2"%string, mkWorker WOtherWorker false)] false.

Lemma cancel_all_workers_spec_witness :
  NoDup (map fst (active_workers two_workers)) /\
  cancel_all_workers two_workers =
  (2, mkWM [("op-1"%string, mkWorker WDownload true); ("op-2"%string, mkWorker WOtherWorker true)] true).
Proof.
  assert (Hnd : NoDup (map fst (active_workers two_workers))).
  { apply (bool_decide_unpack _). vm_compute. exact I. }
  split; [exact Hnd|]. rewrite (cancel_all_workers_spec two_workers Hnd). reflexivity.
Defined.

Lemma dict_get_set k w d : dict_get k (dict_set k w d) = Some w.
Proof.
  unfold dict_get, dict_set. destruct (existsb _ d) eqn:E.
  - induction d as [|[k' v] d IH]; simpl in *; [discriminate|].
    destruct (String.eqb k' k) eqn:Ek; simpl; [rewrite String.eqb_refl; reflexivity|].
    rewrite Ek. exact (IH E).
  - induction d as [|[k' v] d IH]; simpl in *; [rewrite String.eqb_refl; reflexivity|].
    apply orb_false_iff in E as [E1 E2]. rewrite E1. exact (IH E2).
Qed.

Lemma dict_get_mutate k f d :
  dict_get k (dict_mutate k f d) = option_map f (dict_get k d).
Proof.
  unfold dict_get, dict_mutate. induction d as [|[k' v] d IH]; simpl; [reflexivity|].
  destruct (String.eqb k' k) eqn:E; simpl; rewrite ?E; [reflexivity|exact IH].
Qed.

Lemma dict_get_del k d : dict_get k (dict_del k d) = None.
Proof.
  unfold dict_get, dict_del. induction d as [|[k' v] d IH]; simpl; [reflexivity|].
  destruct (String.eqb k' k) eqn:E; simpl; [exact IH|rewrite E; exact IH].
Qed.

Lemma existsb_set k w d : existsb (fun kv => String.eqb (fst kv) k) (dict_set k w d) = true.
Proof.
  apply existsb_exists. exists (k, w). split; [|apply String.eqb_refl].
  unfold dict_set. destruct (existsb _ d) eqn:E.
  - apply existsb_exists in E as [[k' v] [Hin Hk]]. simpl in Hk.
    apply in_map_iff. exists (k', v). split; [simpl; rewrite Hk; reflexivity|exact Hin].
  - apply in_or_app. right. left. reflexivity.
Qed.

(** Extra X14 ([WorkerManager.start_worker], [cancel_worker],
    [_cleanup_worker]): a started worker can be cancelled (its flag is set,
    and for a download worker so is the client's download-stop event)
    until its [finished] or [error] signal runs the cleanup; after the
    cleanup, [cancel_worker] returns [False] and changes nothing. *)
Theorem worker_cancel_until_cleanup (w : Worker) (worker_id : string) (m : WM) :
  let m1 := start_worker w worker_id m in
  cancel_worker worker_id m1 =
    (true, mkWM (dict_mutate worker_id cancel (active_workers m1))
                (download_stop m || is_download w)) /\
  dict_get worker_id (active_workers (snd (cancel_worker worker_id m1))) = Some (cancel w) /\
  cancel_worker worker_id (cleanup_worker worker_id m1) = (false, cleanup_worker worker_id m1).
Proof.
  cbv zeta. unfold cancel_worker at 1 2. unfold start_worker. simpl.
  rewrite dict_get_set. simpl. split; [reflexivity|]. split.
  - rewrite dict_get_mutate, dict_get_set. reflexivity.
  - unfold cleanup_worker. simpl. rewrite existsb_set. unfold cancel_worker. simpl.
    rewrite dict_get_del. reflexivity.
Qed.

End WorkersProofs.

Module OperationsBulkProofs.
Import Operations OperationsBulk OperationsProofs.

Lemma in_active_ids (m : gmap string Operation) id :
  In id (map fst (List.filter (fun kv => is_active (snd kv)) (map_to_list m))) <->
  exists op, m !! id = Some op /\ is_active op = true.
Proof.
  rewrite in_map_iff. split.
  - intros [[k op] [Hk Hin]]. cbn [fst] in Hk. subst k.
    apply filter_In in Hin as [Hin Ha].
    exists op. split; [|exact Ha]. apply elem_of_map_to_list, list_elem_of_In. exact Hin.
  - intros [op [Hop Ha]]. exists (id, op). split; [reflexivity|].
    apply filter_In. split; [|exact Ha].
    apply list_elem_of_In, elem_of_map_to_list. exact Hop.
Qed.

Lemma in_terminal_ids (m : gmap string Operation) id :
  In id (map fst (List.filter (fun kv => is_terminal (snd kv)) (map_to_list m))) <->
  exists op, m !! id = Some op /\ is_active op = false.
Proof.
  rewrite in_map_iff. split.
  - intros [[k op] [Hk Hin]]. cbn [fst] in Hk. subst k.
    apply filter_In in Hin as [Hin Ha]. unfold is_terminal in Ha. apply negb_true_iff in Ha.
    exists op. split; [|exact Ha]. apply elem_of_map_to_list, list_elem_of_In. exact Hin.
  - intros [op [Hop Ha]]. exists (id, op). split; [reflexivity|].
    apply filter_In. split; [|unfold is_terminal; cbn [snd]; rewrite Ha; reflexivity].
    apply list_elem_of_In, elem_of_map_to_list. exact Hop.
Qed.

Lemma NoDup_fst_filter {B} (f : string * B -> bool) (l : list (string * B)) :
  NoDup (map fst l) -> NoDup (map fst (List.filter f l)).
Proof.
  induction l as [|[k v] l IH]; intros Hnd; simpl; [constructor|].
  apply NoDup_cons in Hnd as [Hnotin Hnd].
  destruct (f (k, v)); [|exact (IH Hnd)].
  simpl. apply NoDup_cons. split; [|exact (IH Hnd)].
  intros Hin. apply Hnotin. apply list_elem_of_In in Hin. apply list_elem_of_In.
  apply in_map_iff in Hin as [[k' v'] [Hk Hin]]. apply filter_In in Hin as [Hin _].
  apply in_map_iff. exists (k', v'). split; [exact Hk|exact Hin].
Qed.

Lemma fold_remove_lookup ids :
  forall w k,
  operations (fold_left (fun w id => remove_operation id w) ids w) !! k =
    (if in_dec string_dec k ids then None else operations w !! k) /\
  operation_counters (fold_left (fun w id => remove_operation id w) ids w) = operation_counters w /\
  operation_cancelled_emitted (fold_left (fun w id => remove_operation id w) ids w) =
    operation_cancelled_emitted w.
Proof.
  induction ids as [|i ids IH]; intros w k; cbn [fold_left].
  - split; [|split; reflexivity]. destruct (in_dec string_dec k []) as [[]|_]; reflexivity.
  - destruct (IH (remove_operation i w) k) as (H1 & H2 & H3). rewrite H1, H2, H3.
    unfold remove_operation. cbn [operations operation_counters operation_cancelled_emitted].
    split; [|split; reflexivity].
    destruct (in_dec string_dec k ids) as [Hin|Hnin];
      destruct (in_dec string_dec k (i :: ids)) as [Hin'|Hnin']; try reflexivity.
    + exfalso. apply Hnin'. right. exact Hin.
    + destruct Hin' as [->|Hin']; [apply lookup_delete_eq|contradiction].
    + rewrite lookup_delete_ne; [reflexivity|]. intros ->. apply Hnin'. left. reflexivity.
Qed.

(** Extra X15 ([OperationsWindow.clear_completed]): clearing removes
    exactly the completed and failed operations and keeps every active
    one; the active/completed/failed counters are left as they were, so
    the completed and failed counts go on including the cleared
    operations. *)
Theorem clear_completed_keeps_active (w : Window) :
  operations (clear_completed w) = filter (fun kv => is_active kv.2 = true) (operations w) /\
  operation_counters (clear_completed w) = operation_counters w.
Proof.
  unfold clear_completed.
  set (ids := map fst (List.filter (fun kv => is_terminal (snd kv)) (map_to_list (operations w)))).
  assert (Hops : operations (fold_left (fun w id => remove_operation id w) ids w) =
                 filter (fun kv => is_active kv.2 = true) (operations w)).
  { apply map_eq. intros k. destruct (fold_remove_lookup ids w k) as [-> _].
    destruct (in_dec string_dec k ids) as [Hin|Hnin].
    - apply in_terminal_ids in Hin as (op & Hop & Ha). symmetry.
      apply map_lookup_filter_None_2. right. intros op' Hop'. cbn [snd].
      rewrite Hop in Hop'. injection Hop' as <-. congruence.
    - destruct (operations w !! k) as [op|] eqn:Hop.
      + destruct (is_active op) eqn:Ha.
        * symmetry. apply map_lookup_filter_Some_2; [exact Hop|exact Ha].
        * exfalso. apply Hnin. apply in_terminal_ids. exists op. split; assumption.
      + symmetry. apply map_lookup_filter_None_2. left. exact Hop. }
  destruct ids as [|i ids'] eqn:Eids.
  - split; [|reflexivity]. rewrite <- Hops. reflexivity.
  - split; [exact Hops|]. apply (fold_remove_lookup (i :: ids') w "").
Qed.

Lemma cancel_operation_active id w op :
  operations w !! id = Some op -> is_active op = true ->
  cancel_operation id w = ([id], mkWindow (operations w) (operation_counters w)
                                    (operation_cancelled_emitted w ++ [id])).
Proof.
  intros Hop Ha. unfold cancel_operation. rewrite Hop.
  unfold is_active in Ha. destruct (op_state op); [reflexivity|discriminate..].
Qed.

Lemma fold_cancel_ops (w : Window) l :
  forall acc wc,
  operations wc = operations w ->
  (forall kv, In kv l -> operations w !! kv.1 = Some kv.2) ->
  fold_left (fun acc kv =>
               if is_active (snd kv)
               then let (e, w') := cancel_operation (fst kv) (snd acc) in (fst acc ++ e, w')
               else acc) l (acc, wc) =
  (acc ++ map fst (List.filter (fun kv => is_active (snd kv)) l),
   mkWindow (operations wc) (operation_counters wc)
     (operation_cancelled_emitted wc ++ map fst (List.filter (fun kv => is_active (snd kv)) l))).
Proof.
  induction l as [|[k op] l IH]; intros acc wc Hwc Hl; cbn [fold_left List.filter map].
  - rewrite !app_nil_r. destruct wc; reflexivity.
  - cbn [snd fst]. destruct (is_active op) eqn:Ha.
    + rewrite (cancel_operation_active k wc op) by
        first [exact Ha | rewrite Hwc; exact (Hl (k, op) (or_introl eq_refl))].
      cbn [fst snd map]. rewrite IH.
      * cbn [operations operation_counters operation_cancelled_emitted].
        rewrite <- !app_assoc. reflexivity.
      * exact Hwc.
      * intros kv Hkv. apply Hl. right. exact Hkv.
    + apply IH; [exact Hwc|]. intros kv Hkv. apply Hl. right. exact Hkv.
Qed.

(** Extra X16 ([OperationsWindow.cancel_all_operations]): it changes no
    operation's state and no counter. Unless the user confirms, nothing
    is emitted; once confirmed, [operation_cancelled] is emitted exactly
    once for each active operation and for no other. *)
Theorem cancel_all_operations_spec (confirmed : bool) (w : Window) :
  let r := cancel_all_operations confirmed w in
  operations (snd r) = operations w /\
  operation_counters (snd r) = operation_counters w /\
  operation_cancelled_emitted (snd r) = operation_cancelled_emitted w ++ fst r /\
  (confirmed = false -> fst r = []) /\
  (confirmed = true -> NoDup (fst r) /\
     forall id, In id (fst r) <-> exists op, operations w !! id = Some op /\ is_active op = true).
Proof.
  cbv zeta. unfold cancel_all_operations.
  set (l := map_to_list (operations w)).
  assert (Hl : forall kv, In kv l -> operations w !! kv.1 = Some kv.2).
  { intros [k v] Hin. apply elem_of_map_to_list, list_elem_of_In. exact Hin. }
  assert (Hnd : NoDup (map fst (List.filter (fun kv => is_active (snd kv)) l))).
  { apply NoDup_fst_filter. apply NoDup_fst_map_to_list. }
  destruct (Nat.eqb_spec (length (List.filter (fun kv => is_active (snd kv)) l)) 0) as [H0|H0].
  - cbn [fst snd]. rewrite app_nil_r. repeat split; try reflexivity.
    + constructor.
    + intros [].
    + intros Hex. apply in_active_ids in Hex. fold l in Hex.
      apply length_zero_iff_nil in H0. rewrite H0 in Hex. contradiction.
  - destruct confirmed; cbn [negb].
    + rewrite (fold_cancel_ops w l [] w eq_refl Hl). cbn [fst snd app].
      repeat split; try reflexivity; [discriminate|exact Hnd| |].
      * intros Hin. apply in_active_ids. exact Hin.
      * intros Hex. apply in_active_ids in Hex. exact Hex.
    + cbn [fst snd]. rewrite app_nil_r. repeat split; try reflexivity; discriminate.
Qed.

Lemma cancel_operation_counters id w :
  operation_counters (snd (cancel_operation id w)) = operation_counters w.
Proof.
  unfold cancel_operation. destruct (operations w !! id) as [op|]; [|reflexivity].
  destruct (op_state op); reflexivity.
Qed.

Lemma active_total_step e a :
  event_ok e (window a) ->
  active_total (window a) = n_active (operation_counters (window a)) ->
  active_total (window (step e a)) = n_active (operation_counters (window (step e a))).
Proof.
  unfold active_total.
  destruct e as [i ty|i p|i s|i|i]; cbn [event_ok step window]; intros Hok Hinv.
  - unfold add_operation. cbn [operations operation_counters n_active].
    rewrite map_filter_insert_True by reflexivity.
    rewrite map_size_insert_None by (apply map_lookup_filter_None_2; left; exact Hok).
    lia.
  - unfold update_progress. destruct (operations (window a) !! i) as [op|] eqn:Hop; [|exact Hinv].
    cbn [operations operation_counters].
    destruct (is_active op) eqn:Ha.
    + rewrite map_filter_insert_True by (unfold is_active in *; cbn [snd op_state]; exact Ha).
      rewrite map_size_insert_Some by (exists op; apply map_lookup_filter_Some_2; assumption).
      exact Hinv.
    + rewrite map_filter_insert_not'.
      * exact Hinv.
      * unfold is_active in *. cbn [snd op_state]. rewrite Ha. discriminate.
      * intros y Hy. rewrite Hop in Hy. injection Hy as <-. cbn [snd]. rewrite Ha. discriminate.
  - unfold complete_operation. destruct (operations (window a) !! i) as [op|] eqn:Hop; [|exact Hinv].
    pose proof (Hok op eq_refl) as Ha.
    cbn [operations operation_counters].
    rewrite map_filter_insert_False by (destruct s; discriminate).
    rewrite map_filter_delete.
    rewrite map_size_delete_Some by (exists op; apply map_lookup_filter_Some_2; assumption).
    assert (Hpos : (0 < size (filter (fun kv => is_active kv.2 = true) (operations (window a))))%nat).
    { apply Nat.neq_0_lt_0. intros Hz. apply map_size_empty_inv in Hz.
      assert (Hf : filter (fun kv => is_active kv.2 = true) (operations (window a)) !! i = Some op)
        by (apply map_lookup_filter_Some_2; assumption).
      rewrite Hz, lookup_empty in Hf. discriminate. }
    destruct s; cbn [n_active]; lia.
  - pose proof (cancel_operation_operations i (window a)) as Hops.
    pose proof (cancel_operation_counters i (window a)) as Hcnt.
    destruct (cancel_operation i (window a)) as [em w']. cbn [window]. cbn [snd] in Hops, Hcnt.
    rewrite Hops, Hcnt. exact Hinv.
  - unfold remove_operation. cbn [operations operation_counters].
    rewrite map_filter_delete, map_size_delete_None; [exact Hinv|].
    apply map_lookup_filter_None_2.
    destruct (operations (window a) !! i) as [op|] eqn:Hop; [right|left; reflexivity].
    intros y Hy. injection Hy as <-. cbn [snd]. rewrite (Hok op eq_refl). discriminate.
Qed.

(** Extra X17 ([OperationsWindow] counters): the [active] counter equals
    the number of operations in state ['active'] at every point of a
    sequence of calls that starts with it so, provided [add_operation]
    gets fresh ids, [complete_operation] is not called on a finished
    operation and [remove_operation] is not called on an active one. *)
Theorem active_counter_matches (evs : list Event) :
  forall a,
  active_total (window a) = n_active (operation_counters (window a)) ->
  run_ok evs a ->
  active_total (window (run evs a)) = n_active (operation_counters (window (run evs a))).
Proof.
  induction evs as [|e evs IH]; intros a Hinv Hok; [exact Hinv|].
  destruct Hok as [He Hok]. unfold run. cbn [fold_left].
  apply IH; [|exact Hok]. apply active_total_step; assumption.
Qed.

Definition empty_app : App := mkApp (mkWindow ∅ (mkCounters 0 0 0) []) (mkManager ∅ []).

Definition session : list Event :=
  [EvAdd "a" "Upload"; EvAdd "b" "Download"; EvProgress "a" 50; EvComplete "a" true;
   EvCancel "b"; EvRemove "a"; EvComplete "b" false].

Lemma active_counter_matches_witness :
  active_total (window empty_app) = n_active (operation_counters (window empty_app)) /\
  run_ok session empty_app /\
  active_total (window (run session empty_app)) =
    n_active (operation_counters (window (run session empty_app))).
Proof.
  assert (H0 : active_total (window empty_app) = n_active (operation_counters (window empty_app)))
    by reflexivity.
  assert (Hok : run_ok session empty_app).
  { vm_compute. repeat split; intros op Hop; injection Hop as <-; reflexivity. }
  split; [exact H0|]. split; [exact Hok|].
  exact (active_counter_matches session empty_app H0 Hok).
Defined.

End OperationsBulkProofs.

Module BucketProofs.
Import Listing ListingProofs ListingMoreProofs Bucket.

Lemma batch_size_pos : (0 < batch_size)%nat.
Proof. unfold batch_size. lia. Qed.

Lemma delete_batches_shape (delete_ok : nat -> bool) (bucket_name : string)
    (objects : list ObjectEntry) fuel :
  forall k cs,
  exists bs,
    fst (delete_batches delete_ok bucket_name objects fuel k cs) =
      cs ++ map (DeleteObjects bucket_name) bs /\
    List.Forall (fun b => 1 <= length b <= batch_size)%nat bs /\
    (snd (delete_batches delete_ok bucket_name objects fuel k cs) = true ->
     (length objects <= (k + fuel) * batch_size)%nat ->
     concat bs = map entry_key (skipn (k * batch_size) objects) /\
     forall j, (k <= j)%nat -> (j * batch_size < length objects)%nat -> delete_ok j = true) /\
    ((forall j, (k <= j)%nat -> (j * batch_size < length objects)%nat -> delete_ok j = true) ->
     snd (delete_batches delete_ok bucket_name objects fuel k cs) = true).
Proof.
  pose proof batch_size_pos as Hpos.
  induction fuel as [|fuel IH]; intros k cs; cbn [delete_batches].
  - exists []. rewrite app_nil_r. split; [reflexivity|]. split; [constructor|].
    split; [|reflexivity]. intros _ Hlen. rewrite Nat.add_0_r in Hlen. split.
    + rewrite skipn_all2 by exact Hlen. reflexivity.
    + intros j Hj Hlt. exfalso. nia.
  - destruct (Nat.leb_spec (length objects) (k * batch_size)) as [Hle|Hgt].
    + exists []. rewrite app_nil_r. split; [reflexivity|]. split; [constructor|].
      split; [|reflexivity]. intros _ _. split.
      * rewrite skipn_all2 by exact Hle. reflexivity.
      * intros j Hj Hlt. exfalso. nia.
    + set (batch := map entry_key (firstn batch_size (skipn (k * batch_size) objects))).
      assert (Hb : (1 <= length batch <= batch_size)%nat).
      { unfold batch. rewrite length_map, length_firstn, length_skipn. lia. }
      destruct (delete_ok k) eqn:Hk.
      * destruct (IH (S k) (cs ++ [DeleteObjects bucket_name batch])) as (bs & Hf & Hfor & Hs & Ha).
        exists (batch :: bs). split; [rewrite Hf, <- app_assoc; reflexivity|].
        split; [constructor; assumption|]. split.
        -- intros Hsnd Hlen.
           replace (S k + fuel)%nat with (k + S fuel)%nat in Hs by lia.
           destruct (Hs Hsnd Hlen) as [Hc Hj]. split.
           ++ cbn [concat]. rewrite Hc. unfold batch.
              replace (S k * batch_size)%nat with (batch_size + k * batch_size)%nat by lia.
              rewrite <- skipn_skipn, <- map_app, firstn_skipn. reflexivity.
           ++ intros j Hkj Hlt. destruct (Nat.eq_dec j k) as [->|Hne]; [exact Hk|].
              apply Hj; [lia|exact Hlt].
        -- intros Hall. apply Ha. intros j Hj Hlt. apply Hall; [lia|exact Hlt].
      * exists [batch]. split; [reflexivity|]. split; [constructor; [exact Hb|constructor]|].
        split; [discriminate|]. intros Hall. rewrite (Hall k (le_n k) Hgt) in Hk. discriminate.
Qed.

Lemma chain_requests (client : ListingClient) (bucket prefix delimiter : string)
    (f : list (ListRequest * Page)) :
  first_ok client bucket prefix delimiter f -> chain_ok f ->
  forall k r pg, nth_error f k = Some (r, pg) ->
  req_Delimiter r = delimiter /\
  req_Prefix r = (if String.eqb prefix "" then None else Some prefix).
Proof.
  intros Hfirst Hchain k. induction k as [|k IH]; intros r pg Hk.
  - pose proof (Hfirst (r, pg) Hk) as H0. cbn [fst] in H0. subst r. split; reflexivity.
  - destruct (nth_error f k) as [[r0 pg0]|] eqn:Hk0.
    + rewrite (Hchain k r0 pg0 r pg Hk0 Hk). unfold next_request, with_token.
      destruct (truthy (NextContinuationToken pg0)); exact (IH r0 pg0 eq_refl).
    + exfalso. apply nth_error_None in Hk0.
      assert (Hs : nth_error f (S k) <> None) by (rewrite Hk; discriminate).
      apply nth_error_Some in Hs. lia.
Qed.

Lemma list_objects_facts (client : ListingClient) (call : nat -> ListRequest -> option Page)
    (bucket prefix delimiter : string) (res : ListResult) (f : list (ListRequest * Page)) :
  list_objects client call bucket prefix delimiter = Some (res, f) ->
  map entry_key (objects res) = flat_map (fun x => map Key (Contents (snd x))) f /\
  List.Forall (fun x => req_Delimiter (fst x) = delimiter /\
                        req_Prefix (fst x) = (if String.eqb prefix "" then None else Some prefix)) f.
Proof.
  unfold list_objects. intros H.
  destruct (list_loop client call prefix _ _) as [st|] eqn:Hrun; [|discriminate].
  injection H as <- <-. cbn [objects]. split.
  - pose proof Hrun as Hacc. eapply list_loop_accum in Hacc; [|split; reflexivity].
    destruct Hacc as [Ho _]. rewrite Ho. apply keys_of_entries.
  - pose proof Hrun as Hch. eapply (list_loop_chain client call bucket prefix delimiter) in Hch.
    2:{ repeat split; cbn [fetched params continuation_token].
        - intros x Hx; destruct x; discriminate.
        - intros [|k] ? ? ? ? Hk; discriminate.
        - intros Hne; contradiction. }
    destruct Hch as [Hfirst Hchain].
    apply List.Forall_forall. intros [r pg] Hin. apply In_nth_error in Hin as [k Hk].
    exact (chain_requests client bucket prefix delimiter _ Hfirst Hchain k r pg Hk).
Qed.

(** Extra X18 ([delete_bucket] with [force=True], [_delete_all_objects]):
    when the listing and every batch delete succeed, the calls made are
    [delete_objects] batches of 1 to 1000 keys followed by one
    [delete_bucket], and the batches hold, in order, exactly the keys
    of the [Contents] of the listed pages. Those pages are all requested
    with [Delimiter='/'] and no [Prefix], so only the bucket's top-level
    keys are deleted. *)
Theorem delete_bucket_force_calls (client : ListingClient)
    (call : nat -> ListRequest -> option Page) (delete_ok : nat -> bool)
    (bucket_ok : bool) (bucket_name : string) (res : ListResult)
    (f : list (ListRequest * Page)) :
  list_objects client call bucket_name "" "/" = Some (res, f) ->
  (forall k, (k * batch_size < length (objects res))%nat -> delete_ok k = true) ->
  exists batches,
    delete_bucket client call delete_ok bucket_ok bucket_name true =
      (map (DeleteObjects bucket_name) batches ++ [DeleteBucket bucket_name], bucket_ok) /\
    concat batches = flat_map (fun x => map Key (Contents (snd x))) f /\
    List.Forall (fun b => 1 <= length b <= batch_size)%nat batches /\
    List.Forall (fun x => req_Delimiter (fst x) = "/" /\ req_Prefix (fst x) = None) f.
Proof.
  intros Hlist Hok.
  destruct (list_objects_facts client call bucket_name "" "/" res f Hlist) as [Hkeys Hreq].
  unfold delete_bucket, delete_all_objects. rewrite Hlist.
  destruct (objects res) as [|o os] eqn:Eo.
  - exists []. split; [reflexivity|]. split; [exact Hkeys|]. split; [constructor|exact Hreq].
  - pose proof batch_size_pos as Hpos.
    destruct (delete_batches_shape delete_ok bucket_name (o :: os) (S (length (o :: os))) 0 [])
      as (bs & Hf & Hfor & Hs & Ha).
    assert (Hsnd : snd (delete_batches delete_ok bucket_name (o :: os) (S (length (o :: os))) 0 [])
                   = true) by (apply Ha; intros j _ Hj; apply Hok; exact Hj).
    destruct (Hs Hsnd ltac:(nia)) as [Hc _].
    destruct (delete_batches delete_ok bucket_name (o :: os) (S (length (o :: os))) 0 [])
      as [cs ok]. cbn [fst snd] in Hf, Hsnd. subst cs ok.
    exists bs. split; [reflexivity|]. split; [|split; assumption].
    rewrite Hc. exact Hkeys.
Qed.

(** Extra X19 ([delete_bucket] with [force=True]): [delete_bucket] is
    called only after [list_objects] returned and every batch delete
    succeeded; a failure anywhere before makes [delete_bucket] raise
    without that call, and it returns [True] only when the
    [delete_bucket] call was made and succeeded. *)
Theorem delete_bucket_only_after_batches (client : ListingClient)
    (call : nat -> ListRequest -> option Page) (delete_ok : nat -> bool)
    (bucket_ok : bool) (bucket_name : string) :
  let r := delete_bucket client call delete_ok bucket_ok bucket_name true in
  (In (DeleteBucket bucket_name) (fst r) ->
   exists res f, list_objects client call bucket_name "" "/" = Some (res, f) /\
     forall k, (k * batch_size < length (objects res))%nat -> delete_ok k = true) /\
  (snd r = true -> bucket_ok = true /\ In (DeleteBucket bucket_name) (fst r)).
Proof.
  cbv zeta. unfold delete_bucket, delete_all_objects.
  destruct (list_objects client call bucket_name "" "/") as [[res f]|] eqn:Hl.
  - destruct (objects res) as [|o os] eqn:Eo.
    + cbn [fst snd app]. split.
      * intros _. exists res, f. split; [reflexivity|]. intros k Hk. rewrite Eo in Hk.
        cbn [length] in Hk. lia.
      * intros ->. split; [reflexivity|left; reflexivity].
    + pose proof batch_size_pos as Hpos.
      destruct (delete_batches_shape delete_ok bucket_name (o :: os) (S (length (o :: os))) 0 [])
        as (bs & Hf & _ & Hs & _).
      destruct (delete_batches delete_ok bucket_name (o :: os) (S (length (o :: os))) 0 [])
        as [cs ok]. cbn [fst snd] in Hf, Hs. subst cs.
      destruct ok; cbn [fst snd].
      * split.
        -- intros _. exists res, f. split; [reflexivity|]. intros k Hk. rewrite Eo in Hk.
           destruct (Hs eq_refl ltac:(nia)) as [_ Hj]. apply Hj; [lia|exact Hk].
        -- intros ->. split; [reflexivity|]. apply in_or_app. right. left. reflexivity.
      * split; [|discriminate]. intros Hin. cbn [app] in Hin.
        apply in_map_iff in Hin as [b [Hb _]]. discriminate.
  - cbn [fst snd]. split; [intros []|discriminate].
Qed.

(** A bucket of 2500 top-level keys and one folder, listed in one page. *)
Definition one_page (k : nat) (r : ListRequest) : option Page :=
  Some (mkPage (repeat (mkS3Object "obj" 1) 2500) ["dir/"] false None).

Lemma delete_bucket_force_calls_witness :
  exists res f,
    list_objects default_listing_client one_page "b" "" "/" = Some (res, f) /\
    (forall k, (k * batch_size < length (objects res))%nat -> true = true) /\
    exists batches,
      delete_bucket default_listing_client one_page (fun _ => true) true "b" true =
        (map (DeleteObjects "b") batches ++ [DeleteBucket "b"], true) /\
      concat batches = flat_map (fun x => map Key (Contents (snd x))) f /\
      List.Forall (fun b => 1 <= length b <= batch_size)%nat batches /\
      List.Forall (fun x => req_Delimiter (fst x) = "/" /\ req_Prefix (fst x) = None) f.
Proof.
  eexists _, _. split; [vm_compute; reflexivity|]. split; [intros; reflexivity|].
  eapply (delete_bucket_force_calls default_listing_client one_page (fun _ => true) true "b");
    [vm_compute; reflexivity|intros; reflexivity].
Defined.

End BucketProofs.

Module UploadDirProofs.
Import PyStr UploadDir.
Local Open Scope string_scope.
#[local] Arguments String.append : simpl nomatch.

Section FsInd.
Variables (P : FsItem -> Prop) (Q : list FsItem -> Prop).
Hypotheses (Hfile : forall n s, P (FsFile n s)) (Hdir0 : forall n, P (FsDir n None))
  (Hdir : forall n cs, Q cs -> P (FsDir n (Some cs))) (Hno : forall n, P (FsNoInfo n))
  (Hnil : Q []) (Hcons : forall it rest, P it -> Q rest -> Q (it :: rest)).

Fixpoint fsitem_ind' (it : FsItem) : P it :=
  match it with
  | FsFile n s => Hfile n s
  | FsDir n None => Hdir0 n
  | FsDir n (Some cs) =>
    Hdir n cs ((fix go (l : list FsItem) : Q l :=
                  match l with
                  | [] => Hnil
                  | x :: r => Hcons x r (fsitem_ind' x) (go r)
                  end) cs)
  | FsNoInfo n => Hno n
  end.

Definition fsitems_ind' (l : list FsItem) : Q l :=
  (fix go (l : list FsItem) : Q l :=
     match l with
     | [] => Hnil
     | x :: r => Hcons x r (fsitem_ind' x) (go r)
     end) l.

End FsInd.

(** The paths of the files below an entry, relative to the directory
    that lists it, depth-first in listing order. *)
Fixpoint rel_paths_item (it : FsItem) : list string :=
  match it with
  | FsFile n _ => [n]
  | FsDir n (Some cs) => map (fun r => n ++ "/" ++ r) (flat_map rel_paths_item cs)
  | _ => []
  end.

Definition rel_paths (items : list FsItem) : list string := flat_map rel_paths_item items.

(** The total [st_size] of those files. *)
Fixpoint size_item (it : FsItem) : Z :=
  match it with
  | FsFile _ s => s
  | FsDir _ (Some cs) => fold_right (fun x acc => size_item x + acc)%Z 0%Z cs
  | _ => 0%Z
  end.

Definition sizes (items : list FsItem) : Z := fold_right (fun x acc => size_item x + acc)%Z 0%Z items.

(** Every directory below can be listed. *)
Fixpoint listable_item (it : FsItem) : bool :=
  match it with
  | FsDir _ None => false
  | FsDir _ (Some cs) => forallb listable_item cs
  | _ => true
  end.

Definition listable (items : list FsItem) : bool := forallb listable_item items.

(** Every file name below is non-empty and does not end in ['/']. *)
Fixpoint names_ok_item (it : FsItem) : bool :=
  match it with
  | FsFile n _ => negb (String.eqb n "") && negb (Listing.ends_with "/" n)
  | FsDir _ (Some cs) => forallb names_ok_item cs
  | _ => true
  end.

Definition names_ok (items : list FsItem) : bool := forallb names_ok_item items.

Definition keys (st : UState) : list string := map snd (uploads st).

(** What a run of the loop from [st] did, against the keys [full] of
    all files it would upload, whose sizes add up to [total]. *)
Definition shape (st : UState) (full : list string) (total : Z) (r : UState * bool) : Prop :=
  (exists n, (n <= length full)%nat /\ keys (fst r) = (keys st ++ firstn n full)%list) /\
  (snd r = true ->
     keys (fst r) = (keys st ++ full)%list /\
     uploaded_files (fst r) = (uploaded_files st + length full)%nat /\
     uploaded_size (fst r) = (uploaded_size st + total)%Z /\
     errors (fst r) = errors st) /\
  (errors (fst r) <= S (errors st))%nat.

Lemma str_app_assoc' (s1 s2 s3 : string) : (s1 ++ s2) ++ s3 = s1 ++ (s2 ++ s3).
Proof. induction s1 as [|a s1 IH]; simpl; congruence. Qed.

Lemma upload_shape cancelled_at upload_ok :
  forall items cur pfx st,
  shape st (map (fun r => pfx ++ r) (rel_paths items)) (sizes items)
    (loop_items (upload_item cancelled_at upload_ok cur pfx) items st).
Proof.
  apply (fsitems_ind'
    (fun it => forall cur pfx st,
       shape st (map (fun r => pfx ++ r) (rel_paths_item it)) (size_item it)
         (upload_item cancelled_at upload_ok cur pfx it st))
    (fun items => forall cur pfx st,
       shape st (map (fun r => pfx ++ r) (rel_paths items)) (sizes items)
         (loop_items (upload_item cancelled_at upload_ok cur pfx) items st))).
  - (* file *)
    intros n s cur pfx st. cbn [upload_item item_name rel_paths_item size_item map].
    destruct (cancelled_at _).
    + split; [exists 0%nat; split; [lia|rewrite app_nil_r; reflexivity]|].
      split; [discriminate|cbn [fst]; lia].
    + destruct (upload_ok _); unfold shape, keys; cbn [fst snd uploads errors uploaded_files uploaded_size length].
      * split; [exists 1%nat; split; [lia|rewrite map_app; reflexivity]|].
        split; [|lia]. intros _. rewrite map_app. repeat split; lia.
      * split; [exists 1%nat; split; [lia|rewrite map_app; reflexivity]|].
        split; [discriminate|lia].
  - (* unlistable directory *)
    intros n cur pfx st. cbn [upload_item item_name rel_paths_item size_item map].
    destruct (cancelled_at _); unfold shape, keys, emit_error;
      cbn [fst snd uploads errors length firstn];
      (split; [exists 0%nat; split; [lia|rewrite app_nil_r; reflexivity]|]);
      (split; [discriminate|lia]).
  - (* directory *)
    intros n cs IH cur pfx st. cbn [upload_item item_name rel_paths_item size_item].
    assert (Hfull : map (fun r => pfx ++ r) (map (fun r => n ++ "/" ++ r) (flat_map rel_paths_item cs))
                    = map (fun r => (pfx ++ n ++ "/") ++ r) (rel_paths cs)).
    { rewrite map_map. apply map_ext. intros r. rewrite !str_app_assoc'. reflexivity. }
    rewrite Hfull. destruct (cancelled_at _).
    + split; [exists 0%nat; split; [lia|rewrite app_nil_r; reflexivity]|].
      split; [discriminate|cbn [fst]; lia].
    + exact (IH _ _ st).
  - (* entry without info *)
    intros n cur pfx st. cbn [upload_item item_name rel_paths_item size_item map].
    destruct (cancelled_at _); unfold shape; cbn [fst snd length firstn].
    + split; [exists 0%nat; split; [lia|rewrite app_nil_r; reflexivity]|].
      split; [discriminate|lia].
    + split; [exists 0%nat; split; [lia|rewrite app_nil_r; reflexivity]|].
      split; [|lia]. intros _. rewrite app_nil_r. repeat split; lia.
  - (* end of the listing *)
    intros cur pfx st. unfold shape. cbn [loop_items fst snd rel_paths flat_map map length].
    split; [exists 0%nat; split; [lia|rewrite app_nil_r; reflexivity]|].
    split; [|lia]. intros _. rewrite app_nil_r. unfold sizes. cbn [fold_right].
    repeat split; lia.
  - (* one more entry *)
    intros it rest IHit IHrest cur pfx st.
    unfold rel_paths. cbn [loop_items flat_map]. fold (rel_paths rest).
    change (sizes (it :: rest)) with (size_item it + sizes rest)%Z.
    rewrite map_app.
    destruct (IHit cur pfx st) as ([n1 [Hn1 Hk1]] & Hok1 & He1).
    destruct (upload_item cancelled_at upload_ok cur pfx it st) as [st' go] eqn:E.
    cbn [fst snd] in Hk1, Hok1, He1.
    destruct go.
    + destruct (Hok1 eq_refl) as (Hk & Hf & Hs & He).
      destruct (IHrest cur pfx st') as ([n2 [Hn2 Hk2]] & Hok2 & He2).
      split; [|split].
      * exists (length (map (fun r => pfx ++ r) (rel_paths_item it)) + n2)%nat.
        split; [rewrite length_app; lia|]. rewrite Hk2, Hk, firstn_app_2, app_assoc. reflexivity.
      * intros Hgo. destruct (Hok2 Hgo) as (Hk' & Hf' & Hs' & He').
        rewrite Hk', Hk, app_assoc, Hf', Hf, Hs', Hs, He', He, length_app. split; [reflexivity|].
        split; [lia|]. split; [lia|reflexivity].
      * lia.
    + unfold shape. cbn [fst snd]. split; [|split; [discriminate|exact He1]].
      exists n1. split; [rewrite length_app; lia|].
      rewrite Hk1, firstn_app. replace (n1 - length (map (fun r => pfx ++ r) (rel_paths_item it)))%nat
        with 0%nat by lia. rewrite firstn_0, app_nil_r. reflexivity.
Qed.

Lemma upload_succeeds cancelled_at upload_ok :
  (forall p, cancelled_at p = false) -> (forall p, upload_ok p = true) ->
  forall items cur pfx st, listable items = true ->
  snd (loop_items (upload_item cancelled_at upload_ok cur pfx) items st) = true.
Proof.
  intros Hc Hu.
  apply (fsitems_ind'
    (fun it => forall cur pfx st, listable_item it = true ->
       snd (upload_item cancelled_at upload_ok cur pfx it st) = true)
    (fun items => forall cur pfx st, listable items = true ->
       snd (loop_items (upload_item cancelled_at upload_ok cur pfx) items st) = true)).
  - intros n s cur pfx st _. cbn [upload_item]. rewrite Hc, Hu. reflexivity.
  - intros n cur pfx st H. discriminate.
  - intros n cs IH cur pfx st H. cbn [upload_item]. rewrite Hc. apply IH. exact H.
  - intros n cur pfx st _. cbn [upload_item]. rewrite Hc. reflexivity.
  - intros cur pfx st _. reflexivity.
  - intros it rest IHit IHrest cur pfx st H. unfold listable in H. cbn [forallb] in H.
    apply andb_true_iff in H as [H1 H2]. cbn [loop_items].
    pose proof (IHit cur pfx st H1) as Hgo.
    destruct (upload_item cancelled_at upload_ok cur pfx it st) as [st' go].
    cbn [snd] in Hgo. subst go. apply IHrest. exact H2.
Qed.

Lemma substring_app_shift (s t : string) k n :
  substring (String.length s + k) n (s ++ t) = substring k n t.
Proof. induction s as [|a s IH]; simpl; [reflexivity|exact IH]. Qed.

Lemma str_length_app' (s t : string) :
  String.length (s ++ t) = (String.length s + String.length t)%nat.
Proof. induction s as [|a s IH]; simpl; [reflexivity|rewrite IH; reflexivity]. Qed.

Lemma ends_with_app s t :
  t <> "" -> Listing.ends_with "/" (s ++ t) = Listing.ends_with "/" t.
Proof.
  intros Ht. unfold Listing.ends_with. rewrite str_length_app'.
  destruct t as [|c t']; [contradiction|]. cbn [String.length].
  replace (1 <=? String.length s + S (String.length t'))%nat
    with true by (symmetry; apply Nat.leb_le; cbn; lia).
  replace (1 <=? S (String.length t'))%nat
    with true by (symmetry; apply Nat.leb_le; cbn; lia).
  cbn [String.length].
  replace (String.length s + S (String.length t') - 1)%nat
    with (String.length s + (S (String.length t') - 1))%nat by lia.
  rewrite substring_app_shift. reflexivity.
Qed.

Lemma starts_with_app p s : starts_with p (p ++ s) = true.
Proof.
  unfold starts_with. induction p as [|a p IH]; [destruct s; reflexivity|].
  cbn [String.append String.prefix]. destruct (ascii_dec a a) as [_|n]; [exact IH|contradiction].
Qed.

Lemma rel_paths_names :
  forall items, names_ok items = true ->
  List.Forall (fun r => r <> "" /\ Listing.ends_with "/" r = false) (rel_paths items).
Proof.
  apply (fsitems_ind'
    (fun it => names_ok_item it = true ->
       List.Forall (fun r => r <> "" /\ Listing.ends_with "/" r = false) (rel_paths_item it))
    (fun items => names_ok items = true ->
       List.Forall (fun r => r <> "" /\ Listing.ends_with "/" r = false) (rel_paths items))).
  - intros n s H. cbn [names_ok_item] in H. apply andb_true_iff in H as [H1 H2].
    apply negb_true_iff in H1, H2. constructor; [|constructor]. split; [|exact H2].
    intros ->. discriminate.
  - intros n _. constructor.
  - intros n cs IH H. cbn [rel_paths_item]. apply List.Forall_map.
    eapply List.Forall_impl; [|exact (IH H)]. intros r [Hne Hend]. split.
    + destruct n; discriminate.
    + rewrite ends_with_app by discriminate.
      rewrite (ends_with_app (String "/" "") r Hne). exact Hend.
  - intros n _. constructor.
  - intros _. constructor.
  - intros it rest IHit IHrest H. unfold names_ok in H. cbn [forallb] in H.
    apply andb_true_iff in H as [H1 H2]. unfold rel_paths. cbn [flat_map].
    apply List.Forall_app. split; [exact (IHit H1)|exact (IHrest H2)].
Qed.


(** Extra X21 ([UploadDirectoryWorker._upload_directory_recursive]):
    when no check finds the worker cancelled, every [upload_file] call
    returns and every directory can be listed, it returns [True] having
    uploaded every file of the tree, and emits no error. *)
Theorem upload_directory_complete (cancelled_at upload_ok : string -> bool)
    (current_dir s3_prefix : string) (items : list FsItem) (st : UState) :
  (forall p, cancelled_at p = false) -> (forall p, upload_ok p = true) ->
  listable items = true ->
  let r := upload_directory_recursive cancelled_at upload_ok current_dir s3_prefix
             (Some items) st in
  snd r = true /\
  keys (fst r) = (keys st ++ map (fun p => (s3_prefix ++ p)%string) (rel_paths items))%list /\
  uploaded_files (fst r) = (uploaded_files st + length (rel_paths items))%nat /\
  errors (fst r) = errors st.
Proof.
  intros Hc Hu Hl. cbv zeta. unfold upload_directory_recursive, upload_items.
  pose proof (upload_succeeds cancelled_at upload_ok Hc Hu items current_dir s3_prefix st Hl) as Hok.
  destruct (upload_shape cancelled_at upload_ok items current_dir s3_prefix st) as (_ & Hfin & _).
  destruct (Hfin Hok) as (Hk & Hf & _ & He).
  rewrite length_map in Hf. split; [exact Hok|]. split; [exact Hk|]. split; assumption.
Qed.

(** Extra X22 ([UploadDirectoryWorker._upload_directory_recursive]):
    whatever happens during the run, every key it uploads starts with the
    given prefix and, when no file name is empty or ends in ['/'], does
    not end in ['/']: no directory marker object is ever created. *)
Theorem upload_keys_no_marker (cancelled_at upload_ok : string -> bool)
    (current_dir s3_prefix : string) (items : list FsItem) (st : UState) :
  names_ok items = true ->
  exists new_keys,
    keys (fst (upload_directory_recursive cancelled_at upload_ok current_dir s3_prefix
                 (Some items) st)) = (keys st ++ new_keys)%list /\
    List.Forall (fun k => starts_with s3_prefix k = true /\ Listing.ends_with "/" k = false)
      new_keys.
Proof.
  intros Hn. unfold upload_directory_recursive, upload_items.
  destruct (upload_shape cancelled_at upload_ok items current_dir s3_prefix st)
    as ([n [_ Hk]] & _ & _).
  eexists. split; [exact Hk|].
  apply Forall_take. apply List.Forall_map.
  eapply List.Forall_impl; [|exact (rel_paths_names items Hn)].
  intros r [Hne Hend]. split; [apply starts_with_app|].
  rewrite ends_with_app by exact Hne. exact Hend.
Qed.

(** A small tree: a file, a subdirectory holding a file and an entry
    without info, and an empty subdirectory. *)
Definition sample_tree : list FsItem :=
  [FsFile "a.txt" 5; FsDir "sub" (Some [FsFile "b.txt" 3; FsNoInfo "gone"]);
   FsDir "empty" (Some [])].

Definition start_state : UState := mkU [] 0 0 0.

Lemma upload_directory_complete_witness :
  let r := upload_directory_recursive (fun _ => false) (fun _ => true) "/home/u/docs"
             "backup/docs/" (Some sample_tree) start_state in
  snd r = true /\
  keys (fst r) = (keys start_state ++ map (fun p => ("backup/docs/" ++ p)%string) (rel_paths sample_tree))%list /\
  uploaded_files (fst r) = (uploaded_files start_state + length (rel_paths sample_tree))%nat /\
  errors (fst r) = errors start_state.
Proof.
  apply (upload_directory_complete (fun _ => false) (fun _ => true) "/home/u/docs"
           "backup/docs/" sample_tree start_state);
    [intros; reflexivity|intros; reflexivity|vm_compute; reflexivity].
Defined.

Lemma upload_keys_no_marker_witness :
  exists new_keys,
    keys (fst (upload_directory_recursive (fun p => String.eqb p "/home/u/docs/sub/b.txt")
                 (fun _ => true) "/home/u/docs" "backup/docs/" (Some sample_tree) start_state))
      = (keys start_state ++ new_keys)%list /\
    List.Forall (fun k => starts_with "backup/docs/" k = true /\ Listing.ends_with "/" k = false)
      new_keys.
Proof.
  apply (upload_keys_no_marker (fun p => String.eqb p "/home/u/docs/sub/b.txt") (fun _ => true)
           "/home/u/docs" "backup/docs/" sample_tree start_state).
  vm_compute. reflexivity.
Defined.

End UploadDirProofs.
